(** * ChessX100: the move-legality engine and the move handler

    A shallow embedding of the server of the 10x10 chess variant
    (constants, [pathClear], [isValidPawnMove], [isValidMove], the
    [POST /api/move] handler, [toAlgebraic], [pieceToNotation]) together
    with the properties its specification states about it.

    Conventions of the embedding.
    - Coordinates are JavaScript numbers holding integers; they are [Z].
      The handler does not check this of the numbers it is sent; every
      statement below about squares and submissions is about integer
      coordinates.
    - A piece is a two-character string, colour letter then type letter.
      The board only ever holds the strings built by [initialBoard] and by
      the promotion template, so a piece is a pair of two enumerations.
    - Reading [a[i]] outside an array gives [undefined]; reading a
      property of [undefined] or [null] throws a [TypeError].  Both are
      kept: a cell read returns a [jsval], and code that can throw lives
      in the [exec] monad.
    - The game object is threaded through the handler as a value; its
      [size] field is the constant [SIZE] and is left out, and so is the
      HTTP status of an answer.
    - The [default] case of the [switch] in [isValidMove] cannot be
      reached with the seven piece letters; its reason is kept in
      [reason]. *)

From Stdlib Require Import ZArith Lia Bool String Ascii DecimalString.
From stdpp Require Import base list strings.

Local Open Scope Z_scope.

(** ** Data model *)

Definition SIZE : Z := 10.

Inductive color := White | Black.

Inductive kind := Pawn | Rook | Bishop | Knight | Noble | Queen | King.

(** ["wP"], ["bK"], ...: [piece[0]] is the colour, [piece[1]] the type. *)
Record piece := Piece { pcolor : color; pkind : kind }.

(** A board cell holds [null] ([None]) or a piece string. *)
Abbreviation cell := (option piece) (only parsing).

(** The board is an array of rows. *)
Abbreviation Board := (list (list cell)) (only parsing).

(** What an expression [board[r][c]] can evaluate to. *)
Inductive jsval := JUndefined | JNull | JStr (p : piece).

(** A square [{ r, c }]; the fields are [sr] and [sc], as [r] and [c]
    name the loop variables of [pathClear]. *)
Record square := Sq { sr : Z; sc : Z }.

Inductive reason :=
| GameOver
| MissingFromTo
| OutOfBounds
| SameSquare
| NoPiece
| NotYourPiece
| OwnPiece
| IllegalPawn
| IllegalKnight
| IllegalBishop
| IllegalRook
| IllegalQueen
| IllegalKing
| IllegalNoble
| UnknownPiece.

Definition reason_text (x : reason) : string :=
  match x with
  | GameOver => "Game over. Reset to play again."
  | MissingFromTo => "Missing from/to."
  | OutOfBounds => "Out of bounds."
  | SameSquare => "You must move to a different square."
  | NoPiece => "No piece on that square."
  | NotYourPiece => "Not your piece / not your turn."
  | OwnPiece => "You can’t capture your own piece."
  | IllegalPawn => "Illegal pawn move."
  | IllegalKnight => "Illegal knight move."
  | IllegalBishop => "Illegal bishop move."
  | IllegalRook => "Illegal rook move."
  | IllegalQueen => "Illegal queen move."
  | IllegalKing => "Illegal king move."
  | IllegalNoble => "Illegal noble move."
  | UnknownPiece => "Unknown piece."
  end.

(** [{ ok: true }] or [{ ok: false, reason }]. *)
Inductive verdict := Ok | Fail (why : reason).

Record game := Game {
  board : Board;
  turn : color;
  moveNumber : Z;
  isOver : bool;
  enPassantTarget : option square;
  enPassantPawn : option square;
  moves : list string
}.

(** ** Computations that may throw

    [Done a] is a normal return, [TypeError] the exception of a read or
    write through [undefined] or [null].  [OutOfFuel] is the answer of a
    loop cut short by its fuel; the only loop is that of [pathClear], which
    is given enough ([pathClear_total]). *)

Inductive exec (A : Type) :=
| Done (a : A)
| TypeError
| OutOfFuel.

Arguments Done {A} a.
Arguments TypeError {A}.
Arguments OutOfFuel {A}.

#[global] Instance exec_bind : MBind exec := fun A B k m =>
  match m with
  | Done a => k a
  | TypeError => TypeError
  | OutOfFuel => OutOfFuel
  end.

(** ** Colours and pieces *)

Definition color_eqb (a b : color) : bool :=
  match a, b with
  | White, White | Black, Black => true
  | _, _ => false
  end.

Definition kind_eqb (a b : kind) : bool :=
  match a, b with
  | Pawn, Pawn | Rook, Rook | Bishop, Bishop | Knight, Knight
  | Noble, Noble | Queen, Queen | King, King => true
  | _, _ => false
  end.

Definition other (x : color) : color :=
  match x with White => Black | Black => White end.

(** [piece?.[0] ?? null] *)
Definition colorOf (v : jsval) : option color :=
  match v with JStr p => Some (pcolor p) | _ => None end.

(** [piece?.[1] ?? null] *)
Definition typeOf (v : jsval) : option kind :=
  match v with JStr p => Some (pkind p) | _ => None end.

(** [v === null] *)
Definition is_null (v : jsval) : bool :=
  match v with JNull => true | _ => false end.

(** JavaScript truthiness of a cell value ([undefined] and [null] are
    falsy, a two-character string is truthy). *)
Definition truthy (v : jsval) : bool :=
  match v with JStr _ => true | _ => false end.

(** [colorOf(v) === color] *)
Definition has_color (v : jsval) (x : color) : bool :=
  match colorOf v with Some y => color_eqb y x | None => false end.

(** [pieceType === "P"] and the like, for a [pieceType] that may be [null] *)
Definition type_is (t : option kind) (k : kind) : bool :=
  match t with Some y => kind_eqb y k | None => false end.

(** [v[1] === "P"] and the like, for a truthy [v] *)
Definition has_kind (v : jsval) (k : kind) : bool :=
  type_is (typeOf v) k.

(** ** Arrays *)

(** [a[i]]: [None] stands for [undefined]. *)
Definition index {A} (a : list A) (i : Z) : option A :=
  if 0 <=? i then a !! Z.to_nat i else None.

(** The value of a cell that exists. *)
Definition jsOf (x : cell) : jsval :=
  match x with None => JNull | Some p => JStr p end.

(** [board[r][c]] *)
Definition getCell (b : Board) (r c : Z) : exec jsval :=
  match index b r with
  | None => TypeError
  | Some line =>
      Done (match index line c with
            | None => JUndefined
            | Some x => jsOf x
            end)
  end.

(** [board[r][c] = v].  A missing row throws.  A column outside the row
    would make JavaScript grow the array (or add a property); the
    embedding leaves the row as it is in that case, which the handler never
    meets: it writes only after [isValidMove] has accepted, to the origin,
    the destination and the en-passant victim, all squares of the board
    (lemmas [isValidMove_Ok] and [isEnPassantCaptureOf_true]). *)
Definition setCell (b : Board) (r c : Z) (v : cell) : exec Board :=
  match index b r with
  | None => TypeError
  | Some line =>
      Done (<[Z.to_nat r := if 0 <=? c then <[Z.to_nat c := v]> line else line]> b)
  end.

(** ** Initial position *)

Definition backRank (x : color) : list cell :=
  map (fun k => Some (Piece x k))
      [Rook; Knight; Bishop; Noble; Queen; King; Noble; Bishop; Knight; Rook].

Definition initialBoard : Board :=
  [ backRank Black; replicate 10 (Some (Piece Black Pawn)) ]
  ++ replicate 6 (replicate 10 None)
  ++ [ replicate 10 (Some (Piece White Pawn)); backRank White ].

Definition initialGame : game :=
  {| board := initialBoard; turn := White; moveNumber := 1; isOver := false;
     enPassantTarget := None; enPassantPawn := None; moves := [] |}.

(** ** Board queries *)

Definition inBounds (r c : Z) : bool :=
  (0 <=? r) && (r <? SIZE) && (0 <=? c) && (c <? SIZE).

(** ** [pathClear]

    The [while] loop of [pathClear], with the squares it reads collected
    on the side.  [r] and [c] are the loop variables; one unit of [fuel]
    pays for one test of the loop condition. *)
Fixpoint pathWalk (fuel : nat) (b : Board) (dr dc : Z) (to : square)
    (r c : Z) : list square * exec bool :=
  match fuel with
  | O => ([], OutOfFuel)
  | S fuel' =>
      if negb (r =? sr to) || negb (c =? sc to) then
        match getCell b r c with
        | Done v =>
            if negb (is_null v) then ([Sq r c], Done false)
            else
              let rest := pathWalk fuel' b dr dc to (r + dr) (c + dc) in
              (Sq r c :: fst rest, snd rest)
        | TypeError => ([Sq r c], TypeError)
        | OutOfFuel => ([Sq r c], OutOfFuel)
        end
      else ([], Done true)
  end.

(** Enough fuel for every run of the loop (lemma [pathClear_total]). *)
Definition pathFuel (b : Board) (from to : square) : nat :=
  S (length b + Z.to_nat (Z.abs (sc to - sc from))).

Definition pathRun (b : Board) (from to : square) : list square * exec bool :=
  let dr := Z.sgn (sr to - sr from) in
  let dc := Z.sgn (sc to - sc from) in
  pathWalk (pathFuel b from to) b dr dc to (sr from + dr) (sc from + dc).

Definition pathClear (b : Board) (from to : square) : exec bool :=
  snd (pathRun b from to).

(** The squares [pathClear] reads, in order. *)
Definition pathReads (b : Board) (from to : square) : list square :=
  fst (pathRun b from to).

(** ** [isValidPawnMove] *)

(** [color === "w" ? -1 : 1] *)
Definition dirOf (x : color) : Z :=
  match x with White => -1 | Black => 1 end.

(** [color === "w" ? SIZE - 2 : 1] *)
Definition startRowOf (x : color) : Z :=
  match x with White => SIZE - 2 | Black => 1 end.

(** The condition of the en-passant [if] and the test on the victim. *)
Definition enPassantClause (b : Board) (from to : square) (x : color)
    (target : jsval) (enPassantTarget enPassantPawn : option square) : exec bool :=
  match enPassantTarget, enPassantPawn with
  | Some ept, Some epp =>
      if is_null target
         && (sr to =? sr ept) && (sc to =? sc ept)
         && (sr epp =? sr from) && (sc epp =? sc to)
      then
        victim ← getCell b (sr epp) (sc epp);
        Done (truthy victim && has_kind victim Pawn && negb (has_color victim x))
      else Done false
  | _, _ => Done false
  end.

Definition isValidPawnMove (b : Board) (from to : square) (x : color)
    (enPassantTarget enPassantPawn : option square) : exec bool :=
  let dir := dirOf x in
  let startRow := startRowOf x in
  let dr := sr to - sr from in
  let dc := sc to - sc from in
  target ← getCell b (sr to) (sc to);
  if dc =? 0 then
    if (dr =? dir) && is_null target then Done true
    else if (sr from =? startRow) && (dr =? 2 * dir) then
      let midR := sr from + dir in
      if is_null target then
        mid ← getCell b midR (sc from);
        Done (is_null mid)
      else Done false
    else Done false
  else if (Z.abs dc =? 1) && (dr =? dir) then
    if negb (is_null target) && negb (has_color target x) then Done true
    else enPassantClause b from to x target enPassantTarget enPassantPawn
  else Done false.

(** ** [isValidMove] *)

Section Validator.

(** The function called as [pathClear]; [isValidMove] below instantiates
    it with [pathClear] itself. *)
Variable clearPath : Board -> square -> square -> exec bool.

Definition judge (ok : bool) (why : reason) : verdict :=
  if ok then Ok else Fail why.

Definition isValidMoveWith (b : Board) (from to : square) (turnColor : color)
    (enPassantTarget enPassantPawn : option square) : exec verdict :=
  if negb (inBounds (sr from) (sc from)) || negb (inBounds (sr to) (sc to))
  then Done (Fail OutOfBounds)
  else if (sr from =? sr to) && (sc from =? sc to)
  then Done (Fail SameSquare)
  else
    piece ← getCell b (sr from) (sc from);
    match piece with
    | JStr p =>
        let pieceColor := pcolor p in
        let pieceType := pkind p in
        if negb (color_eqb pieceColor turnColor) then Done (Fail NotYourPiece)
        else
          target ← getCell b (sr to) (sc to);
          if truthy target && has_color target turnColor
          then Done (Fail OwnPiece)
          else
            let dr := sr to - sr from in
            let dc := sc to - sc from in
            let adr := Z.abs dr in
            let adc := Z.abs dc in
            match pieceType with
            | Pawn =>
                ok ← isValidPawnMove b from to pieceColor
                       enPassantTarget enPassantPawn;
                Done (judge ok IllegalPawn)
            | Knight =>
                let ok := ((adr =? 2) && (adc =? 1)) || ((adr =? 1) && (adc =? 2)) in
                Done (judge ok IllegalKnight)
            | Bishop =>
                ok ← (if adr =? adc then clearPath b from to else Done false);
                Done (judge ok IllegalBishop)
            | Rook =>
                ok ← (if (dr =? 0) || (dc =? 0) then clearPath b from to
                      else Done false);
                Done (judge ok IllegalRook)
            | Queen =>
                ok ← (if (adr =? adc) || ((dr =? 0) || (dc =? 0))
                      then clearPath b from to else Done false);
                Done (judge ok IllegalQueen)
            | King =>
                let ok := (adr <=? 1) && (adc <=? 1) in
                Done (judge ok IllegalKing)
            | Noble =>
                let ok := (adr <=? 1) && (adc <=? 1) in
                Done (judge ok IllegalNoble)
            end
    | _ => Done (Fail NoPiece)
    end.

End Validator.

Definition isValidMove := isValidMoveWith pathClear.

(** ** Notation strings *)

(** [n.toString()] for an integer. *)
Definition toString (n : Z) : string :=
  NilZero.string_of_int (Z.to_int n).

(** ["abcdefghij"[c]], as it prints inside a string concatenation. *)
Definition fileOf (c : Z) : string :=
  match index (list_ascii_of_string "abcdefghij") c with
  | Some ch => String ch EmptyString
  | None => "undefined"
  end.

Definition toAlgebraic (r c : Z) : string :=
  let file := fileOf c in
  let rank := toString (SIZE - r) in
  file +:+ rank.

(** [s[0]], as it prints inside a string concatenation. *)
Definition firstChar (s : string) : string :=
  match s with
  | String ch _ => String ch EmptyString
  | EmptyString => "undefined"
  end.

Definition pieceToNotation (pieceType : kind) : string :=
  match pieceType with
  | Pawn => ""
  | Rook => "R"
  | Bishop => "B"
  | Knight => "N"
  | Noble => "A"
  | Queen => "Q"
  | King => "K"
  end.

(** ** The move handler, [POST /api/move] *)

Inductive response := Accepted | Rejected (why : reason).

Definition set_board (b : Board) (g : game) : game :=
  Game b (turn g) (moveNumber g) (isOver g)
       (enPassantTarget g) (enPassantPawn g) (moves g).

Definition set_turn (x : color) (g : game) : game :=
  Game (board g) x (moveNumber g) (isOver g)
       (enPassantTarget g) (enPassantPawn g) (moves g).

Definition set_moveNumber (n : Z) (g : game) : game :=
  Game (board g) (turn g) n (isOver g)
       (enPassantTarget g) (enPassantPawn g) (moves g).

Definition set_isOver (o : bool) (g : game) : game :=
  Game (board g) (turn g) (moveNumber g) o
       (enPassantTarget g) (enPassantPawn g) (moves g).

Definition set_enPassantTarget (t : option square) (g : game) : game :=
  Game (board g) (turn g) (moveNumber g) (isOver g)
       t (enPassantPawn g) (moves g).

Definition set_enPassantPawn (v : option square) (g : game) : game :=
  Game (board g) (turn g) (moveNumber g) (isOver g)
       (enPassantTarget g) v (moves g).

Definition push_move (s : string) (g : game) : game :=
  Game (board g) (turn g) (moveNumber g) (isOver g)
       (enPassantTarget g) (enPassantPawn g) (moves g ++ [s]).

(** [game.board[r][c] = v] *)
Definition write (r c : Z) (v : cell) (g : game) : exec game :=
  b ← setCell (board g) r c v;
  Done (set_board b g).

(** The handler's own classification of the move as an en-passant
    capture ([dest] is [game.board[to.r][to.c]]). *)
Definition isEnPassantCaptureOf (movingPiece dest : jsval) (from to : square)
    (epTarget epPawn : option square) : bool :=
  match movingPiece, epTarget, epPawn with
  | JStr mp, Some ept, Some epp =>
      kind_eqb (pkind mp) Pawn
      && is_null dest
      && (Z.abs (sc to - sc from) =? 1)
      && (sr to - sr from =? dirOf (pcolor mp))
      && (sr to =? sr ept) && (sc to =? sc ept)
      && (sr epp =? sr from) && (sc epp =? sc to)
  | _, _, _ => false
  end.

(** If this move was a pawn double-step, set the window for the opponent. *)
Definition openWindow (mp : piece) (from to : square) (g : game) : game :=
  if kind_eqb (pkind mp) Pawn then
    let dir := dirOf (pcolor mp) in
    let startRow := startRowOf (pcolor mp) in
    if (sr from =? startRow) && (Z.abs (sr to - sr from) =? 2)
       && (sc from =? sc to)
    then set_enPassantPawn (Some (Sq (sr to) (sc to)))
           (set_enPassantTarget (Some (Sq (sr from + dir) (sc from))) g)
    else g
  else g.

(** [movingPiece[0] === "w" ? 0 : SIZE - 1] *)
Definition promoteRowOf (x : color) : Z :=
  match x with White => 0 | Black => SIZE - 1 end.

(** Auto-promotion; the second component is [didPromote]. *)
Definition promotion (mp : piece) (to : square) (g : game) : exec (game * bool) :=
  if kind_eqb (pkind mp) Pawn then
    let promoteRow := promoteRowOf (pcolor mp) in
    if sr to =? promoteRow then
      g' ← write (sr to) (sc to) (Some (Piece (pcolor mp) Queen)) g;
      Done (g', true)
    else Done (g, false)
  else Done (g, false).

Definition flipTurn (g : game) : game :=
  let g1 := set_turn (if color_eqb (turn g) White then Black else White) g in
  if color_eqb (turn g1) White
  then set_moveNumber (moveNumber g1 + 1) g1
  else g1.

Definition notationOf (pieceType : option kind) (isCapture over didPromote
    isEnPassantCapture : bool) (from to : square) : string :=
  let notation :=
    if type_is pieceType Pawn then
      if isCapture
      then firstChar (toAlgebraic (sr from) (sc from)) +:+ "x"
             +:+ toAlgebraic (sr to) (sc to)
      else toAlgebraic (sr to) (sc to)
    else
      let n0 := match pieceType with
                | Some k => pieceToNotation k
                | None => ""
                end in
      let n1 := if isCapture then n0 +:+ "x" else n0 in
      n1 +:+ toAlgebraic (sr to) (sc to) in
  let notation := if over then notation +:+ "#" else notation in
  let notation := if didPromote then notation +:+ "=Q" else notation in
  if isEnPassantCapture then notation +:+ " e.p." else notation.

(** The part of the handler that runs once the verdict is [ok]. *)
Definition commitMove (g : game) (from to : square) (mp : piece)
    (pieceType : option kind) (dest : jsval)
    (isCapture isEnPassantCapture : bool) (epPawn : option square)
    : exec (game * response) :=
  let captured := dest in
  g ← write (sr to) (sc to) (Some mp) g;
  g ← write (sr from) (sc from) None g;
  g ← (if isEnPassantCapture then
         match epPawn with
         | Some epp => write (sr epp) (sc epp) None g
         | None => TypeError
         end
       else Done g);
  let g := set_enPassantTarget None g in
  let g := set_enPassantPawn None g in
  let g := openWindow mp from to g in
  gp ← promotion mp to g;
  let g := fst gp in
  let didPromote := snd gp in
  let g := if truthy captured && has_kind captured King
           then set_isOver true g else g in
  let g := flipTurn g in
  let notation := notationOf pieceType isCapture (isOver g) didPromote
                    isEnPassantCapture from to in
  let g := push_move notation g in
  Done (g, Accepted).

(** A request body carries [from] and [to], each possibly missing. *)
Definition apiMove (g : game) (from to : option square)
    : exec (game * response) :=
  if isOver g then Done (g, Rejected GameOver)
  else
    match from, to with
    | Some from, Some to =>
        piece ← getCell (board g) (sr from) (sc from);
        let pieceType := typeOf piece in
        dest ← getCell (board g) (sr to) (sc to);
        let isCapture := negb (is_null dest) in
        let movingPiece := piece in
        let epTarget := enPassantTarget g in
        let epPawn := enPassantPawn g in
        let isEnPassantCapture :=
          isEnPassantCaptureOf movingPiece dest from to epTarget epPawn in
        verdict ← isValidMove (board g) from to (turn g)
                    (enPassantTarget g) (enPassantPawn g);
        match verdict with
        | Fail why => Done (g, Rejected why)
        | Ok =>
            (* an [ok] verdict means [movingPiece] is a string; on
               anything else [movingPiece[1]] throws *)
            match movingPiece with
            | JStr mp =>
                commitMove g from to mp pieceType dest isCapture
                  isEnPassantCapture epPawn
            | _ => TypeError
            end
        end
    | _, _ => Done (g, Rejected MissingFromTo)
    end.

(** Playing a list of moves in turn; stops at the first that is not
    accepted. *)
Fixpoint play (g : game) (ms : list (square * square)) : option game :=
  match ms with
  | [] => Some g
  | (from, to) :: rest =>
      match apiMove g (Some from) (Some to) with
      | Done (g', Accepted) => play g' rest
      | _ => None
      end
  end.

(** ** Specification-side vocabulary *)

(** A square of the board: both coordinates in [[0, size)]. *)
Definition onBoard (s : square) : Prop :=
  0 <= sr s < SIZE /\ 0 <= sc s < SIZE.

(** The board is the [SIZE] x [SIZE] grid. *)
Definition wf_board (b : Board) : Prop :=
  length b = 10%nat /\ Forall (fun line => length line = 10%nat) b.

Definition emptyAt (b : Board) (s : square) : Prop :=
  getCell b (sr s) (sc s) = Done JNull.

Definition pieceAt (b : Board) (s : square) (p : piece) : Prop :=
  getCell b (sr s) (sc s) = Done (JStr p).

(** White's forward direction is decreasing row, Black's increasing row. *)
Definition forward (x : color) : Z :=
  match x with White => -1 | Black => 1 end.

(** Row 1 for Black, row size-2 for White. *)
Definition startRank (x : color) : Z :=
  match x with White => SIZE - 2 | Black => 1 end.

(** The pawn rule as the specification words it. *)
Definition pawnRule (b : Board) (from to : square) (x : color)
    (target victim : option square) : Prop :=
  let dr := sr to - sr from in
  let dc := sc to - sc from in
  (dc = 0 /\ dr = forward x /\ emptyAt b to)
  \/ (dc = 0 /\ dr = 2 * forward x /\ sr from = startRank x
      /\ emptyAt b (Sq (sr from + forward x) (sc from)) /\ emptyAt b to)
  \/ (Z.abs dc = 1 /\ dr = forward x
      /\ exists p, pieceAt b to p /\ pcolor p <> x)
  \/ (Z.abs dc = 1 /\ dr = forward x /\ emptyAt b to
      /\ target = Some to
      /\ exists v, victim = Some v /\ sr v = sr from /\ sc v = sc to
           /\ exists p, pieceAt b v p /\ pkind p = Pawn /\ pcolor p <> x).

(** ** Straight lines *)

(** [from] and [to] share a row, a column or an exact diagonal. *)
Definition aligned (from to : square) : Prop :=
  sr to = sr from \/ sc to = sc from
  \/ Z.abs (sr to - sr from) = Z.abs (sc to - sc from).

(** The number of king steps from [from] to [to]. *)
Definition span (from to : square) : Z :=
  Z.max (Z.abs (sr to - sr from)) (Z.abs (sc to - sc from)).

(** [s] lies strictly between [from] and [to] on their line. *)
Definition between (from to s : square) : Prop :=
  exists i, 0 < i < span from to
    /\ s = Sq (sr from + i * Z.sgn (sr to - sr from))
              (sc from + i * Z.sgn (sc to - sc from)).

(** ** The handler's tests and the board it leaves *)

(** The move is a pawn double-step as the handler tests it. *)
Definition isDoubleStep (mp : piece) (from to : square) : bool :=
  kind_eqb (pkind mp) Pawn
  && (sr from =? startRowOf (pcolor mp))
  && (Z.abs (sr to - sr from) =? 2)
  && (sc from =? sc to).

(** The move promotes as the handler tests it. *)
Definition promotes (mp : piece) (to : square) : bool :=
  kind_eqb (pkind mp) Pawn && (sr to =? promoteRowOf (pcolor mp)).

(** [r === s.r && c === s.c] *)
Definition isSq (r c : Z) (s : square) : bool := (r =? sr s) && (c =? sc s).

(** The board after an accepted move, square by square. *)
Definition boardAfter (b : Board) (from to : square) (mp : piece)
    (epc : bool) (epp : option square) (r c : Z) : exec jsval :=
  if promotes mp to && isSq r c to then Done (JStr (Piece (pcolor mp) Queen))
  else if epc && match epp with Some v => isSq r c v | None => false end
  then Done JNull
  else if isSq r c from then Done JNull
  else if isSq r c to then Done (JStr mp)
  else getCell b r c.

(** ** Accepted moves *)

Record accepted (g : game) (from to : square) (mp : piece) (dest : jsval)
    (g' : game) : Prop := {
  acc_live : isOver g = false;
  acc_from : onBoard from;
  acc_to : onBoard to;
  acc_distinct : from <> to;
  acc_piece : pieceAt (board g) from mp;
  acc_turn : pcolor mp = turn g;
  acc_dest : getCell (board g) (sr to) (sc to) = Done dest;
  acc_dest_cases : dest = JNull \/ exists q, dest = JStr q /\ pcolor q <> turn g;
  acc_pawn : pkind mp = Pawn ->
             isValidPawnMove (board g) from to (pcolor mp)
               (enPassantTarget g) (enPassantPawn g) = Done true;
  acc_commit :
    commitMove g from to mp (Some (pkind mp)) dest (negb (is_null dest))
      (isEnPassantCaptureOf (JStr mp) dest from to
         (enPassantTarget g) (enPassantPawn g))
      (enPassantPawn g) = Done (g', Accepted);
  acc_wf : wf_board (board g');
  acc_board : forall r c,
    getCell (board g') r c =
    boardAfter (board g) from to mp
      (isEnPassantCaptureOf (JStr mp) dest from to
         (enPassantTarget g) (enPassantPawn g))
      (enPassantPawn g) r c
}.

(** ** Serving a sequence of submissions *)

Fixpoint serve (g : game) (reqs : list (option square * option square))
    : exec (game * list response) :=
  match reqs with
  | [] => Done (g, [])
  | (f, t) :: rest =>
      gr ← apiMove g f t;
      gl ← serve (fst gr) rest;
      Done (fst gl, snd gr :: snd gl)
  end.

(** ** Captures, promotion rank, double steps and pawn invariants *)

(** The captured piece of a move, by ordinary capture or by en-passant
    removal, is a King. *)
Definition capturesKing (g : game) (from to : square) : Prop :=
  (exists k, pieceAt (board g) to k /\ pkind k = King)
  \/ (exists mp dest v k,
        pieceAt (board g) from mp
        /\ getCell (board g) (sr to) (sc to) = Done dest
        /\ isEnPassantCaptureOf (JStr mp) dest from to
             (enPassantTarget g) (enPassantPawn g) = true
        /\ enPassantPawn g = Some v
        /\ pieceAt (board g) v k /\ pkind k = King).

(** The farthest rank from a side: row 0 for White, row size-1 for Black. *)
Definition farthestRank (x : color) : Z :=
  match x with White => 0 | Black => SIZE - 1 end.

(** A pawn two-step advance from its starting rank along a single file. *)
Definition doubleStep (mp : piece) (from to : square) : Prop :=
  pkind mp = Pawn
  /\ sr from = startRank (pcolor mp)
  /\ sr to = sr from + 2 * forward (pcolor mp)
  /\ sc to = sc from.

(** The back rank of a side. *)
Definition homeRow (x : color) : Z :=
  match x with White => SIZE - 1 | Black => 0 end.

(** No pawn stands on its own back rank: pawns start one row ahead of it
    and only move forward. *)
Definition noPawnAtHome (b : Board) : Prop :=
  forall c p, pieceAt b (Sq (homeRow (pcolor p)) c) p -> pkind p <> Pawn.

(** No pawn of colour [x] stands on its starting rank in column [c]. *)
Definition vacated (b : Board) (x : color) (c : Z) : Prop :=
  forall p, pieceAt b (Sq (startRowOf x) c) p ->
            ~ (pkind p = Pawn /\ pcolor p = x).

(** ** The notation as the specification words it *)

(** The file letter of a column, counted from ['a']. *)
Definition fileLetter (c : Z) : string :=
  String (ascii_of_nat (97 + Z.to_nat c)) EmptyString.

(** Algebraic square name: file letter, then rank number [size - row]. *)
Definition squareName (s : square) : string :=
  fileLetter (sc s) +:+ toString (SIZE - sr s).

(** [R], [N], [B], [Q], [K], [A]; a pawn has no letter. *)
Definition pieceLetter (k : kind) : string :=
  match k with
  | Pawn => ""
  | Rook => "R"
  | Knight => "N"
  | Bishop => "B"
  | Queen => "Q"
  | King => "K"
  | Noble => "A"
  end.

Definition suffix (flag : bool) (s : string) : string :=
  if flag then s else "".

(** The piece-letter / capture / destination part. *)
Definition describeHead (k : kind) (isCapture : bool) (from to : square)
    : string :=
  match k with
  | Pawn =>
      if isCapture then fileLetter (sc from) +:+ "x" +:+ squareName to
      else squareName to
  | _ => pieceLetter k +:+ suffix isCapture "x" +:+ squareName to
  end.

(** The notation in the order the specification gives: head, [=Q], [#],
    en-passant marker. *)
Definition describe (k : kind) (isCapture isPromotion isEnPassant
    isGameEnding : bool) (from to : square) : string :=
  describeHead k isCapture from to
  +:+ suffix isPromotion "=Q"
  +:+ suffix isGameEnding "#"
  +:+ suffix isEnPassant " e.p.".

(** The notation in the order the handler appends: head, [#], [=Q],
    en-passant marker. *)
Definition describeAppended (k : kind) (isCapture isPromotion isEnPassant
    isGameEnding : bool) (from to : square) : string :=
  describeHead k isCapture from to
  +:+ suffix isGameEnding "#"
  +:+ suffix isPromotion "=Q"
  +:+ suffix isEnPassant " e.p.".

(** The moved piece is a pawn landing on the farthest rank from its side. *)
Definition reachesFarthestRank (mp : piece) (to : square) : bool :=
  kind_eqb (pkind mp) Pawn && (sr to =? farthestRank (pcolor mp)).

(** ** Sample games *)

(** A game from the initial position in which White's f-pawn walks up
    the board, takes on e9 and then takes the King on f10, promoting. *)
Definition pawnTakesKing : list (square * square) :=
  [ (Sq 8 5, Sq 6 5); (Sq 0 1, Sq 2 0);
    (Sq 6 5, Sq 5 5); (Sq 2 0, Sq 0 1);
    (Sq 5 5, Sq 4 5); (Sq 0 1, Sq 2 0);
    (Sq 4 5, Sq 3 5); (Sq 2 0, Sq 0 1);
    (Sq 3 5, Sq 2 5); (Sq 0 1, Sq 2 0);
    (Sq 2 5, Sq 1 4); (Sq 2 0, Sq 0 1) ].

Definition stateAfter (ms : list (square * square)) : game :=
  match play initialGame ms with
  | Some g => g
  | None => initialGame
  end.

(** After 1. e4. *)
Definition afterE4 : game :=
  Eval vm_compute in stateAfter [(Sq 8 4, Sq 6 4)].

(** White's f-pawn stands on e9, next to the black King on f10. *)
Definition beforeMate : game :=
  Eval vm_compute in stateAfter pawnTakesKing.

Definition afterMate : game :=
  Eval vm_compute in stateAfter (pawnTakesKing ++ [(Sq 1 4, Sq 0 5)]).

(** White's e-pawn reaches the seventh rank and Black answers with the
    double step d9-d7 beside it. *)
Definition enPassantGame : list (square * square) :=
  [ (Sq 8 4, Sq 6 4); (Sq 0 1, Sq 2 0);
    (Sq 6 4, Sq 5 4); (Sq 2 0, Sq 0 1);
    (Sq 5 4, Sq 4 4); (Sq 0 1, Sq 2 0);
    (Sq 4 4, Sq 3 4); (Sq 1 3, Sq 3 3) ].

Definition beforeEnPassant : game :=
  Eval vm_compute in stateAfter enPassantGame.

Definition afterEnPassant : game :=
  Eval vm_compute in stateAfter (enPassantGame ++ [(Sq 3 4, Sq 2 3)]).

(** ** [POST /api/reset] and [GET /api/state] *)

Definition set_moves (ms : list string) (g : game) : game :=
  Game (board g) (turn g) (moveNumber g) (isOver g)
       (enPassantTarget g) (enPassantPawn g) ms.

(** The reset handler assigns the fields one after the other. *)
Definition apiReset (g : game) : game :=
  let g := set_board initialBoard g in
  let g := set_turn White g in
  let g := set_moveNumber 1 g in
  let g := set_isOver false g in
  let g := set_enPassantTarget None g in
  let g := set_enPassantPawn None g in
  set_moves [] g.

(** [res.json(game)] *)
Definition apiState (g : game) : game := g.

(** The states the server reaches when every submitted coordinate is an
    integer: the initial one, and those an answered move submission or a
    reset leads to.  A submission that throws is answered by the
    framework and leaves the state as it was: on a well-formed board and
    with integer coordinates the only throwing statements are the two
    reads that precede the validator ([apiMove_rows_on_board]).
    Submissions with other JSON numbers ([8.5]) are outside [square] and
    so outside this relation. *)
Inductive reachable : game -> Prop :=
| reach_init : reachable initialGame
| reach_move g f t g' resp :
    reachable g -> apiMove g f t = Done (g', resp) -> reachable g'
| reach_reset g : reachable g -> reachable (apiReset g).

(** ** Move shapes *)

(** [(|dr|, |dc|)] is [(2, 1)] or [(1, 2)]. *)
Definition knightShape (from to : square) : Prop :=
  (Z.abs (sr to - sr from) = 2 /\ Z.abs (sc to - sc from) = 1)
  \/ (Z.abs (sr to - sr from) = 1 /\ Z.abs (sc to - sc from) = 2).


Definition onDiagonal (from to : square) : Prop :=
  Z.abs (sr to - sr from) = Z.abs (sc to - sc from).

Definition onRankOrFile (from to : square) : Prop :=
  sr to = sr from \/ sc to = sc from.

(** Every square strictly between the two is empty. *)
Definition pathEmpty (b : Board) (from to : square) : Prop :=
  forall s, between from to s -> emptyAt b s.

(** ** Invariants of the reachable states *)

(** Rows 0 and size-1 hold no pawn. *)
Definition noPawnOnEdge (b : Board) : Prop :=
  forall s p, pieceAt b s p -> sr s = 0 \/ sr s = SIZE - 1 -> pkind p <> Pawn.

(** At most one King of each colour, and one of each while the game is
    not over. *)
Definition kingsOk (g : game) : Prop :=
  (forall x s s',
     pieceAt (board g) s (Piece x King) ->
     pieceAt (board g) s' (Piece x King) -> s = s')
  /\ (isOver g = false ->
      forall x, exists s, pieceAt (board g) s (Piece x King)).

(** The length of the history fixes the turn and the move number. *)
Definition historyOk (g : game) : Prop :=
  Z.of_nat (length (moves g))
  = 2 * (moveNumber g - 1) + match turn g with White => 0 | Black => 1 end.

(** The en-passant window is empty or names, for the side that has just
    moved, the empty square its pawn skipped and the square that pawn
    stands on. *)
Definition windowOk (g : game) : Prop :=
  match enPassantTarget g, enPassantPawn g with
  | None, None => True
  | Some T, Some V =>
      let m := other (turn g) in
      sc V = sc T
      /\ sr T = startRowOf m + dirOf m
      /\ sr V = sr T + dirOf m
      /\ emptyAt (board g) T
      /\ pieceAt (board g) V (Piece m Pawn)
  | _, _ => False
  end.

(** ** The earlier server, [server.js]

    Same board, [inBounds], [colorOf], [typeOf] and [pathClear]; no
    en-passant window, no promotion, no game-over flag, no history; the
    handler validates before it touches the board. *)
Module ChessLite.

Inductive verdict := Ok | Fail (reason : string).

Record game := Game {
  board : Board;
  turn : color;
  moveNumber : Z
}.

Definition isValidPawnMove (b : Board) (from to : square) (x : color)
    : exec bool :=
  let dir := dirOf x in
  let startRow := startRowOf x in
  let dr := sr to - sr from in
  let dc := sc to - sc from in
  target ← getCell b (sr to) (sc to);
  if dc =? 0 then
    if (dr =? dir) && is_null target then Done true
    else if (sr from =? startRow) && (dr =? 2 * dir) then
      let midR := sr from + dir in
      if is_null target then
        mid ← getCell b midR (sc from);
        Done (is_null mid)
      else Done false
    else Done false
  else if (Z.abs dc =? 1) && (dr =? dir) then
    Done (negb (is_null target) && negb (has_color target x))
  else Done false.

Definition judge (ok : bool) (reason : string) : verdict :=
  if ok then Ok else Fail reason.

Definition isValidMove (b : Board) (from to : square) (turnColor : color)
    : exec verdict :=
  if negb (inBounds (sr from) (sc from)) || negb (inBounds (sr to) (sc to))
  then Done (Fail "Out of bounds.")
  else if (sr from =? sr to) && (sc from =? sc to)
  then Done (Fail "You must move to a different square.")
  else
    piece ← getCell b (sr from) (sc from);
    match piece with
    | JStr p =>
        let pieceColor := pcolor p in
        let pieceType := pkind p in
        if negb (color_eqb pieceColor turnColor)
        then Done (Fail "Not your piece / not your turn.")
        else
          target ← getCell b (sr to) (sc to);
          if truthy target && has_color target turnColor
          then Done (Fail "You can’t capture your own piece.")
          else
            let dr := sr to - sr from in
            let dc := sc to - sc from in
            let adr := Z.abs dr in
            let adc := Z.abs dc in
            match pieceType with
            | Pawn =>
                ok ← isValidPawnMove b from to pieceColor;
                Done (judge ok "Illegal pawn move.")
            | Knight =>
                let ok := ((adr =? 2) && (adc =? 1))
                          || ((adr =? 1) && (adc =? 2)) in
                Done (judge ok "Illegal knight move.")
            | Bishop =>
                ok ← (if adr =? adc then pathClear b from to
                      else Done false);
                Done (judge ok "Illegal bishop move.")
            | Rook =>
                ok ← (if (dr =? 0) || (dc =? 0) then pathClear b from to
                      else Done false);
                Done (judge ok "Illegal rook move.")
            | Queen =>
                ok ← (if (adr =? adc) || ((dr =? 0) || (dc =? 0))
                      then pathClear b from to else Done false);
                Done (judge ok "Illegal queen move.")
            | King =>
                let ok := (adr <=? 1) && (adc <=? 1) in
                Done (judge ok "Illegal king move.")
            | Noble =>
                let ok := (adr <=? 1) && (adc <=? 1) in
                Done (judge ok "Illegal prince move.")
            end
    | _ => Done (Fail "No piece on that square.")
    end.

Inductive response := Accepted | Rejected (reason : string).

Definition apiMove (g : game) (from to : option square)
    : exec (game * response) :=
  match from, to with
  | Some from, Some to =>
      verdict ← isValidMove (board g) from to (turn g);
      match verdict with
      | Fail reason => Done (g, Rejected reason)
      | Ok =>
          movingPiece ← getCell (board g) (sr from) (sc from);
          (* an [ok] verdict means the origin is on the board, so
             [movingPiece] is never [undefined], which a cell of the
             embedding could not hold *)
          match movingPiece with
          | JUndefined => TypeError
          | _ =>
              let moving := match movingPiece with
                            | JStr p => Some p
                            | _ => None
                            end in
              b ← setCell (board g) (sr to) (sc to) moving;
              b ← setCell b (sr from) (sc from) None;
              let turn' := if color_eqb (turn g) White then Black
                           else White in
              let moveNumber' := if color_eqb turn' White
                                 then moveNumber g + 1 else moveNumber g in
              Done (Game b turn' moveNumber', Accepted)
          end
      end
  | _, _ => Done (g, Rejected "Missing from/to.")
  end.

End ChessLite.

(** The verdict of the earlier validator that answers to a verdict of the
    present one. *)
Definition liteVerdict (v : verdict) : ChessLite.verdict :=
  match v with
  | Ok => ChessLite.Ok
  | Fail IllegalNoble => ChessLite.Fail "Illegal prince move."
  | Fail why => ChessLite.Fail (reason_text why)
  end.

(** ** The client's square names, [public/app.js] *)
Module Client.

(** ["ABCDEFGHIJKLMNOPQRSTUVWXYZ".slice(0, size)], for an integer
    [size]: a negative end counts from the end of the string. *)
Definition filesForSize (size : Z) : string :=
  let stop := if size <? 0 then Z.max (26 + size) 0 else Z.min size 26 in
  String.substring 0 (Z.to_nat stop) "ABCDEFGHIJKLMNOPQRSTUVWXYZ".

Definition rcToAlg (r c size : Z) : string :=
  let file := match index (list_ascii_of_string (filesForSize size)) c with
              | Some ch => String ch EmptyString
              | None => "undefined"
              end in
  let rank := toString (size - r) in
  file +:+ rank.

End Client.

(** * Properties *)

(** ** Arrays and boards *)

Lemma inBounds_onBoard (s : square) :
  inBounds (sr s) (sc s) = true <-> onBoard s.
Proof. unfold inBounds, onBoard, SIZE. lia. Qed.

Lemma index_in_range {A} (a : list A) (i : Z) :
  0 <= i < Z.of_nat (length a) -> exists x, index a i = Some x.
Proof.
  intros Hi. unfold index.
  destruct (Z.leb_spec 0 i); [|lia].
  apply lookup_lt_is_Some. lia.
Qed.

Lemma index_out_of_range {A} (a : list A) (i : Z) :
  i < 0 \/ Z.of_nat (length a) <= i -> index a i = None.
Proof.
  intros Hi. unfold index.
  destruct (Z.leb_spec 0 i); [|done].
  apply lookup_ge_None. lia.
Qed.

Lemma wf_board_line (b : Board) (r : Z) (line : list cell) :
  wf_board b -> index b r = Some line -> length line = 10%nat.
Proof.
  intros [_ Hall] Hr. unfold index in Hr.
  destruct (0 <=? r); [|done].
  rewrite Forall_lookup in Hall. eauto.
Qed.

(** On the board every read gives [null] or a piece, never [undefined]
    and never an exception. *)
Lemma getCell_onBoard (b : Board) (s : square) :
  wf_board b -> onBoard s ->
  exists x : cell, getCell b (sr s) (sc s) = Done (jsOf x).
Proof.
  intros Hwf [Hr Hc]. unfold getCell, SIZE in *.
  destruct (index_in_range b (sr s)) as [line Hline];
    [destruct Hwf as [-> _]; lia|].
  rewrite Hline.
  destruct (index_in_range line (sc s)) as [x Hx];
    [rewrite (wf_board_line b _ _ Hwf Hline); lia|].
  rewrite Hx. eauto.
Qed.

Lemma getCell_cases (b : Board) (s : square) :
  wf_board b -> onBoard s ->
  emptyAt b s \/ exists p, pieceAt b s p.
Proof.
  intros Hwf Hs. destruct (getCell_onBoard b s Hwf Hs) as [[p|] Hx].
  - right. by exists p.
  - by left.
Qed.

(** ** The pawn validator *)

Lemma forward_dirOf (x : color) : forward x = dirOf x.
Proof. by destruct x. Qed.

Lemma color_eqb_eq (a b : color) : color_eqb a b = true <-> a = b.
Proof. destruct a, b; simpl; split; congruence. Qed.

Lemma color_eqb_refl (a : color) : color_eqb a a = true.
Proof. by destruct a. Qed.

Lemma color_eqb_neq (a b : color) : color_eqb a b = false <-> a <> b.
Proof. destruct a, b; simpl; split; congruence. Qed.

Lemma kind_eqb_eq (a b : kind) : kind_eqb a b = true <-> a = b.
Proof. destruct a, b; simpl; split; congruence. Qed.

(** Decompose the hypotheses, then close by arithmetic or by a clash of
    constructors. *)
Ltac break :=
  repeat match goal with
    | H : _ /\ _ |- _ => destruct H
    | H : _ \/ _ |- _ => destruct H
    | H : exists _, _ |- _ => destruct H
    | H : Done _ = Done _ |- _ => injection H as H
    | H : Some _ = Some _ |- _ => injection H as H
    | H : JStr _ = JStr _ |- _ => injection H as H
    | H : JStr _ = JNull |- _ => discriminate H
    | H : JNull = JStr _ |- _ => discriminate H
    end.

Ltac wrap_up := break; subst; simpl in *; try (lia || congruence).

(** The validator computes the pawn rule: on the board it never throws,
    and it answers [true] exactly on the moves of [pawnRule]. *)
Lemma isValidPawnMove_spec b from to x ept epp :
  wf_board b -> onBoard from -> onBoard to ->
  exists ok, isValidPawnMove b from to x ept epp = Done ok
             /\ (ok = true <-> pawnRule b from to x ept epp).
Proof.
  intros Hwf Hf Ht.
  destruct (getCell_onBoard b to Hwf Ht) as [ct Hct].
  unfold isValidPawnMove, pawnRule, emptyAt, pieceAt.
  rewrite Hct. cbn [mbind exec_bind].
  destruct (Z.eqb_spec (sc to - sc from) 0) as [Hdc|Hdc].
  - destruct (Z.eqb_spec (sr to - sr from) (dirOf x)) as [Hdr|Hdr]; cbn [andb].
    + destruct ct as [p|]; cbn [jsOf is_null].
      * exists false. split; [by destruct (_ && _)|].
        split; [done|]. intros H. destruct x; wrap_up.
      * exists true. split; [done|]. split; [|done]. intros _. left.
        by destruct x.
    + destruct (Z.eqb_spec (sr from) (startRowOf x)) as [Hst|Hst]; cbn [andb].
      2:{ exists false. split; [done|]. split; [done|]. intros H.
          destruct x; wrap_up. }
      destruct (Z.eqb_spec (sr to - sr from) (2 * dirOf x)) as [Hdr2|Hdr2].
      2:{ exists false. split; [done|]. split; [done|]. intros H.
          destruct x; wrap_up. }
      destruct ct as [p|]; cbn [jsOf is_null].
      { exists false. split; [done|]. split; [done|]. intros H.
          destruct x; wrap_up. }
      destruct (getCell_onBoard b (Sq (sr from + dirOf x) (sc from)) Hwf)
        as [cm Hcm].
      { destruct Hf, Ht. unfold onBoard, SIZE in *; destruct x; simpl in *; lia. }
      simpl in Hcm. rewrite Hcm. cbn [mbind exec_bind].
      destruct cm as [p|]; cbn [jsOf is_null] in *.
      * exists false. split; [done|]. split; [done|]. intros H.
        destruct x; wrap_up.
      * exists true. split; [done|]. split; [|done]. intros _. right. left.
        by destruct x.
  - destruct (Z.eqb_spec (Z.abs (sc to - sc from)) 1) as [Hadc|Hadc];
      cbn [andb].
    2:{ exists false. split; [done|]. split; [done|]. intros H. wrap_up. }
    destruct (Z.eqb_spec (sr to - sr from) (dirOf x)) as [Hdr|Hdr].
    2:{ exists false. split; [done|]. split; [done|]. intros H.
        destruct x; wrap_up. }
    destruct ct as [p|]; cbn [jsOf is_null negb andb].
    + unfold has_color, enPassantClause. cbn [colorOf is_null andb].
      destruct (color_eqb (pcolor p) x) eqn:Hcol; cbn [negb].
      * exists false. split; [by destruct ept, epp|].
        split; [done|]. intros H. apply color_eqb_eq in Hcol. wrap_up.
      * exists true. split; [done|]. split; [|done]. intros _.
        apply color_eqb_neq in Hcol. right. right. left.
        rewrite forward_dirOf. eauto.
    + unfold enPassantClause. cbn [is_null andb].
      destruct ept as [t|], epp as [v|];
        try (exists false; split; [done|]; split; [done|]; intros H;
             by wrap_up).
      destruct (Z.eqb_spec (sr to) (sr t)) as [Htr|Htr]; cbn [andb].
      2:{ exists false. split; [done|]. split; [done|]. intros H. wrap_up. }
      destruct (Z.eqb_spec (sc to) (sc t)) as [Htc|Htc]; cbn [andb].
      2:{ exists false. split; [done|]. split; [done|]. intros H. wrap_up. }
      destruct (Z.eqb_spec (sr v) (sr from)) as [Hvr|Hvr]; cbn [andb].
      2:{ exists false. split; [done|]. split; [done|]. intros H. wrap_up. }
      destruct (Z.eqb_spec (sc v) (sc to)) as [Hvc|Hvc]; cbn [andb].
      2:{ exists false. split; [done|]. split; [done|]. intros H. wrap_up. }
      destruct (getCell_onBoard b v Hwf) as [cv Hcv].
      { destruct Hf, Ht. unfold onBoard. lia. }
      rewrite Hcv. cbn [mbind exec_bind].
      assert (Some t = Some to) as Heq by (destruct t, to; simpl in *; congruence).
      destruct cv as [q|]; cbn [jsOf truthy andb] in *.
      2:{ exists false. split; [done|]. split; [done|]. intros H. wrap_up. }
      unfold has_kind, has_color, type_is. cbn [typeOf colorOf].
      destruct (kind_eqb (pkind q) Pawn) eqn:Hk; cbn [andb].
      2:{ exists false. split; [done|]. split; [done|]. intros H.
          assert (kind_eqb (pkind q) Pawn = true); [|congruence].
          apply kind_eqb_eq. wrap_up. }
      apply kind_eqb_eq in Hk.
      destruct (color_eqb (pcolor q) x) eqn:Hcol; cbn [negb].
      * exists false. split; [done|]. split; [done|]. intros H.
        apply color_eqb_eq in Hcol. wrap_up.
      * exists true. split; [done|]. split; [|done]. intros _.
        apply color_eqb_neq in Hcol. right. right. right.
        rewrite forward_dirOf. repeat split; eauto 10.
Qed.

(** ** Writing a square of the board *)

Lemma index_insert {A} (a : list A) (i j : Z) (x : A) :
  0 <= i < Z.of_nat (length a) ->
  index (<[Z.to_nat i := x]> a) j = if j =? i then Some x else index a j.
Proof.
  intros Hi. unfold index.
  destruct (Z.eqb_spec j i) as [->|Hne].
  - destruct (Z.leb_spec 0 i); [|lia].
    apply list_lookup_insert_eq. lia.
  - destruct (Z.leb_spec 0 j); [|done].
    apply list_lookup_insert_ne. lia.
Qed.

Lemma setCell_onBoard (b : Board) (s : square) (v : cell) :
  wf_board b -> onBoard s ->
  exists b', setCell b (sr s) (sc s) v = Done b'
    /\ wf_board b'
    /\ forall r c, getCell b' r c =
         if (r =? sr s) && (c =? sc s) then Done (jsOf v) else getCell b r c.
Proof.
  intros Hwf [Hr Hc]. unfold SIZE in *.
  assert (Hlen : length b = 10%nat) by apply Hwf.
  destruct (index_in_range b (sr s)) as [line Hline]; [lia|].
  assert (Hll : length line = 10%nat) by eauto using wf_board_line.
  unfold setCell. rewrite Hline.
  destruct (Z.leb_spec 0 (sc s)); [|lia].
  eexists. split; [reflexivity|]. split.
  - destruct Hwf as [? Hall]. split; [by rewrite length_insert|].
    apply Forall_insert; [done|]. cbv beta. by rewrite length_insert.
  - intros r c. unfold getCell.
    rewrite index_insert by lia.
    destruct (Z.eqb_spec r (sr s)) as [->|Hne]; cbn [andb]; [|done].
    rewrite Hline, index_insert by lia.
    by destruct (Z.eqb_spec c (sc s)) as [->|Hne].
Qed.

Lemma write_onBoard (g : game) (s : square) (v : cell) :
  wf_board (board g) -> onBoard s ->
  exists b', write (sr s) (sc s) v g = Done (set_board b' g)
    /\ wf_board b'
    /\ forall r c, getCell b' r c =
         if (r =? sr s) && (c =? sc s) then Done (jsOf v)
         else getCell (board g) r c.
Proof.
  intros Hwf Hs.
  destruct (setCell_onBoard (board g) s v Hwf Hs) as (b' & Hset & Hb').
  exists b'. unfold write. by rewrite Hset.
Qed.

Lemma write_inv (g g' : game) (r c : Z) (v : cell) :
  write r c v g = Done g' -> exists b', g' = set_board b' g.
Proof.
  unfold write. destruct (setCell _ _ _ _) as [b'| |]; cbn; [|done..].
  intros [= <-]. eauto.
Qed.

Lemma wf_initialBoard : wf_board initialBoard.
Proof. split; [done|]. repeat constructor. Qed.

(** [null] or a piece can only be read from a square of the board. *)
Lemma read_onBoard (b : Board) (s : square) (x : option piece) :
  wf_board b -> getCell b (sr s) (sc s) = Done (jsOf x) -> onBoard s.
Proof.
  intros Hwf Hp. unfold getCell in Hp.
  destruct (index b (sr s)) as [line|] eqn:Hline; [|done].
  assert (Hll : length line = 10%nat) by eauto using wf_board_line.
  destruct Hwf as [Hlen _].
  unfold onBoard, SIZE. split.
  - destruct (Z_lt_le_dec (sr s) 0) as [?|?];
      [rewrite index_out_of_range in Hline by lia; done|].
    destruct (Z_lt_le_dec (sr s) 10) as [?|?]; [lia|].
    rewrite index_out_of_range in Hline by lia; done.
  - destruct (index line (sc s)) as [y|] eqn:Hx; [|by destruct x].
    destruct (Z_lt_le_dec (sc s) 0) as [?|?];
      [rewrite index_out_of_range in Hx by lia; done|].
    destruct (Z_lt_le_dec (sc s) 10) as [?|?]; [lia|].
    rewrite index_out_of_range in Hx by lia; done.
Qed.

(** ** [pathClear] on a straight line *)

Lemma pathWalk_line (b : Board) (dr dc : Z) (to : square) :
  wf_board b -> onBoard to ->
  -1 <= dr <= 1 -> -1 <= dc <= 1 -> dr <> 0 \/ dc <> 0 ->
  forall (k fuel : nat) (r c : Z),
    (k < fuel)%nat -> onBoard (Sq r c) ->
    sr to = r + Z.of_nat k * dr -> sc to = c + Z.of_nat k * dc ->
    exists ok,
      snd (pathWalk fuel b dr dc to r c) = Done ok
      /\ (ok = true <->
          forall i, 0 <= i < Z.of_nat k -> emptyAt b (Sq (r + i * dr) (c + i * dc)))
      /\ (forall s, In s (fst (pathWalk fuel b dr dc to r c)) ->
          exists i, 0 <= i < Z.of_nat k /\ s = Sq (r + i * dr) (c + i * dc)).
Proof.
  intros Hwf Hto Hdr Hdc Hmove k.
  induction k as [|k IH]; intros fuel r c Hfuel Hrc Hr Hc;
    (destruct fuel as [|fuel]; [lia|]); cbn [pathWalk].
  - replace (r =? sr to) with true by lia.
    replace (c =? sc to) with true by lia.
    exists true. cbn. split; [done|]. split; [|done].
    split; [intros _ i ?; lia|done].
  - assert (Hne : negb (r =? sr to) || negb (c =? sc to) = true).
    { apply orb_true_iff. rewrite !negb_true_iff, !Z.eqb_neq. nia. }
    rewrite Hne.
    destruct (getCell_onBoard b (Sq r c) Hwf Hrc) as [x Hx]. simpl in Hx.
    rewrite Hx.
    destruct x as [p|]; cbn [jsOf is_null negb fst snd].
    + exists false. split; [done|]. split; [split; [done|]|].
      * intros Hall. specialize (Hall 0 ltac:(lia)). unfold emptyAt in Hall.
        simpl in Hall. rewrite !Z.add_0_r, Hx in Hall. done.
      * intros s [<-|[]]. exists 0. split; [lia|]. f_equal; lia.
    + destruct (IH fuel (r + dr) (c + dc)) as (ok & Hok & Hiff & Hreads).
      * lia.
      * destruct Hrc as [? ?], Hto as [? ?]. unfold onBoard, SIZE in *.
        simpl in *. nia.
      * lia.
      * lia.
      * exists ok. split; [done|]. split.
        -- rewrite Hiff. split; intros Hall i Hi.
           ++ destruct (Z.eq_dec i 0) as [->|Hi0].
              ** unfold emptyAt. simpl. by rewrite !Z.add_0_r.
              ** specialize (Hall (i - 1) ltac:(lia)).
                 replace (r + dr + (i - 1) * dr) with (r + i * dr) in Hall by lia.
                 by replace (c + dc + (i - 1) * dc) with (c + i * dc) in Hall by lia.
           ++ specialize (Hall (i + 1) ltac:(lia)).
              replace (r + (i + 1) * dr) with (r + dr + i * dr) in Hall by lia.
              by replace (c + (i + 1) * dc) with (c + dc + i * dc) in Hall by lia.
        -- intros s [<-|Hin].
           ++ exists 0. split; [lia|]. f_equal; lia.
           ++ destruct (Hreads s Hin) as (i & Hi & ->).
              exists (i + 1). split; [lia|]. f_equal; lia.
Qed.

Lemma square_neq (s t : square) :
  s <> t <-> sr s <> sr t \/ sc s <> sc t.
Proof.
  destruct s as [a b], t as [a' b']. simpl. split.
  - intros Hne. destruct (Z.eq_dec a a') as [->|]; [|by left].
    right. congruence.
  - intros [?|?] [= ? ?]; done.
Qed.

Lemma between_onBoard (from to s : square) :
  onBoard from -> onBoard to -> aligned from to -> between from to s ->
  onBoard s.
Proof.
  intros [? ?] [? ?] Hal (i & Hi & ->). unfold onBoard, aligned, span, SIZE in *.
  simpl.
  destruct (Z.sgn_spec (sr to - sr from)) as [[? ->]|[[? ->]|[? ->]]];
    destruct (Z.sgn_spec (sc to - sc from)) as [[? ->]|[[? ->]|[? ->]]];
    lia.
Qed.

Lemma pathClear_straight (b : Board) (from to : square) :
  wf_board b -> onBoard from -> onBoard to -> from <> to -> aligned from to ->
  exists ok,
    pathClear b from to = Done ok
    /\ (ok = true <-> forall s, between from to s -> emptyAt b s)
    /\ (forall s, In s (pathReads b from to) ->
          between from to s /\ onBoard s).
Proof.
  intros Hwf Hf Ht Hne Hal.
  apply square_neq in Hne.
  set (dr := Z.sgn (sr to - sr from)).
  set (dc := Z.sgn (sc to - sc from)).
  assert (Hspan : 1 <= span from to <= 9).
  { destruct Hf, Ht. unfold span, SIZE in *. lia. }
  assert (HDr : sr to - sr from = span from to * dr).
  { unfold span, aligned, dr in *.
    destruct (Z.sgn_spec (sr to - sr from)) as [[? ->]|[[? ->]|[? ->]]]; lia. }
  assert (HDc : sc to - sc from = span from to * dc).
  { unfold span, aligned, dc in *.
    destruct (Z.sgn_spec (sc to - sc from)) as [[? ->]|[[? ->]|[? ->]]]; lia. }
  assert (Hdr : -1 <= dr <= 1) by (unfold dr; lia).
  assert (Hdc : -1 <= dc <= 1) by (unfold dc; lia).
  assert (Hmove : dr <> 0 \/ dc <> 0) by (unfold dr, dc; lia).
  destruct (pathWalk_line b dr dc to Hwf Ht Hdr Hdc Hmove
              (Z.to_nat (span from to - 1)) (pathFuel b from to)
              (sr from + dr) (sc from + dc))
    as (ok & Hok & Hiff & Hreads).
  - unfold pathFuel. pose proof (proj1 Hwf). lia.
  - destruct Hf, Ht. unfold onBoard, SIZE in *. simpl. nia.
  - nia.
  - nia.
  - exists ok. split; [exact Hok|]. split.
    + rewrite Hiff. split.
      * intros Hall s (i & Hi & ->). specialize (Hall (i - 1) ltac:(lia)).
        fold dr dc.
        replace (sr from + dr + (i - 1) * dr) with (sr from + i * dr) in Hall by lia.
        by replace (sc from + dc + (i - 1) * dc) with (sc from + i * dc) in Hall by lia.
      * intros Hall i Hi. 
        replace (sr from + dr + i * dr) with (sr from + (i + 1) * dr) by lia.
        replace (sc from + dc + i * dc) with (sc from + (i + 1) * dc) by lia.
        apply Hall. exists (i + 1). split; [lia|done].
    + intros s Hin. unfold pathReads, pathRun in Hin. fold dr dc in Hin.
      destruct (Hreads s Hin) as (i & Hi & ->).
      assert (Hb : between from to
                     (Sq (sr from + dr + i * dr) (sc from + dc + i * dc))).
      { exists (i + 1). split; [lia|]. fold dr dc. f_equal; lia. }
      split; [exact Hb|]. exact (between_onBoard from to _ Hf Ht Hal Hb).
Qed.

(** ** [pathClear] always terminates

    Whatever the squares, the loop returns or throws: moving along the
    rows it leaves the board after at most [length b] reads, and on a
    single row it walks towards [to]. *)

Lemma index_Some_range {A} (a : list A) (i : Z) (x : A) :
  index a i = Some x -> 0 <= i < Z.of_nat (length a).
Proof.
  intros Hx.
  destruct (Z_lt_le_dec i 0);
    [rewrite index_out_of_range in Hx by lia; done|].
  destruct (Z_lt_le_dec i (Z.of_nat (length a))); [lia|].
  rewrite index_out_of_range in Hx by lia; done.
Qed.

Lemma pathWalk_rows_total (b : Board) (dr dc : Z) (to : square) :
  dr = 1 \/ dr = -1 ->
  forall (fuel : nat) (r c : Z),
    (1 <= fuel)%nat ->
    (r < 0 \/ Z.of_nat (length b) <= r
     \/ (if dr =? 1 then Z.of_nat (length b) - r else r + 1) < Z.of_nat fuel) ->
    snd (pathWalk fuel b dr dc to r c) <> OutOfFuel.
Proof.
  intros Hdr fuel. induction fuel as [|fuel IH]; intros r c Hpos Hm; [lia|].
  cbn [pathWalk].
  destruct (negb (r =? sr to) || negb (c =? sc to)); [|done].
  unfold getCell.
  destruct (index b r) as [line|] eqn:Hline; [|done].
  apply index_Some_range in Hline.
  destruct (negb _); [done|]. cbn [snd].
  apply IH; destruct Hdr as [-> | ->]; simpl in *; lia.
Qed.

Lemma pathWalk_row_total (b : Board) (dc : Z) (to : square) :
  forall (fuel : nat) (c : Z),
    Z.abs (sc to - c) < Z.of_nat fuel ->
    c = sc to \/ dc = Z.sgn (sc to - c) ->
    snd (pathWalk fuel b 0 dc to (sr to) c) <> OutOfFuel.
Proof.
  intros fuel. induction fuel as [|fuel IH]; intros c Hm Hdc; [lia|].
  cbn [pathWalk]. rewrite Z.eqb_refl. cbn [negb orb].
  destruct (Z.eqb_spec c (sc to)) as [->|Hne]; [done|]. cbn [negb].
  destruct (getCell b (sr to) c) as [v| |] eqn:Hg; [|done|].
  - destruct (negb _); [done|]. cbn [snd].
    rewrite Z.add_0_r. apply IH; lia.
  - unfold getCell in Hg. by destruct (index b (sr to)).
Qed.

Lemma pathClear_total (b : Board) (from to : square) :
  pathClear b from to <> OutOfFuel.
Proof.
  unfold pathClear, pathRun, pathFuel.
  destruct (Z.sgn_spec (sr to - sr from)) as [[? ->]|[[? ->]|[? ->]]].
  - apply pathWalk_rows_total; [by left|lia|]. simpl. lia.
  - replace (sr from + 0) with (sr to) by lia.
    apply pathWalk_row_total; lia.
  - apply pathWalk_rows_total; [by right|lia|]. simpl. lia.
Qed.

(** ** The calls [isValidMove] makes to [pathClear] *)

Lemma inBounds_false (s : square) :
  inBounds (sr s) (sc s) = false <-> ~ onBoard s.
Proof.
  rewrite <- inBounds_onBoard. by destruct (inBounds (sr s) (sc s)).
Qed.

(** C9. Every call the legality engine makes to [pathClear] (bishop, rook
    and queen cases) passes two distinct squares of the board on a common
    row, column or exact diagonal: replacing [pathClear] by any function
    that agrees with it on such pairs leaves [isValidMove] unchanged.  On
    such a pair the loop terminates, reads only squares of the board that
    lie strictly between the two, and returns [true] exactly when all the
    squares strictly between them are empty. *)
Theorem pathClear_calls_straight (b : Board) :
  wf_board b ->
  (forall clearPath : list (list (option piece)) -> square -> square -> exec bool,
     (forall from to, onBoard from -> onBoard to -> from <> to ->
        aligned from to -> clearPath b from to = pathClear b from to) ->
     forall from to turnColor ept epp,
       isValidMoveWith clearPath b from to turnColor ept epp
       = isValidMove b from to turnColor ept epp)
  /\ (forall from to, onBoard from -> onBoard to -> from <> to ->
        aligned from to ->
        exists ok,
          pathClear b from to = Done ok
          /\ (ok = true <-> forall s, between from to s -> emptyAt b s)
          /\ (forall s, In s (pathReads b from to) ->
                between from to s /\ onBoard s)).
Proof.
  intros Hwf. split.
  - intros clearPath Hagree from to turnColor ept epp.
    unfold isValidMove, isValidMoveWith.
    destruct (inBounds (sr from) (sc from)) eqn:Hf; cbn [negb orb]; [|done].
    destruct (inBounds (sr to) (sc to)) eqn:Ht; cbn [negb orb]; [|done].
    apply inBounds_onBoard in Hf, Ht.
    destruct ((sr from =? sr to) && (sc from =? sc to)) eqn:Hsame; [done|].
    assert (Hne : from <> to).
    { apply square_neq. apply andb_false_iff in Hsame.
      rewrite !Z.eqb_neq in Hsame. done. }
    destruct (getCell b (sr from) (sc from)) as [[| |p]| |]; cbn; try done.
    destruct (negb (color_eqb (pcolor p) turnColor)); [done|].
    destruct (getCell b (sr to) (sc to)) as [target| |]; cbn; try done.
    destruct (truthy target && has_color target turnColor); [done|].
    destruct (pkind p); try done.
    + destruct (_ || _) eqn:Hshape; [|done].
      rewrite Hagree; [done..|]. unfold aligned. lia.
    + destruct (Z.eqb_spec (Z.abs (sr to - sr from)) (Z.abs (sc to - sc from)));
        [|done].
      rewrite Hagree; [done..|]. unfold aligned. lia.
    + destruct (_ || _) eqn:Hshape; [|done].
      rewrite Hagree; [done..|]. unfold aligned. lia.
  - intros from to. by apply pathClear_straight.
Qed.

(** ** What an accepted move is *)

Lemma isValidMove_Ok (b : Board) (from to : square) (x : color)
    (ept epp : option square) :
  isValidMove b from to x ept epp = Done Ok ->
  onBoard from /\ onBoard to /\ from <> to
  /\ exists mp dest,
       getCell b (sr from) (sc from) = Done (JStr mp)
       /\ pcolor mp = x
       /\ getCell b (sr to) (sc to) = Done dest
       /\ truthy dest && has_color dest x = false
       /\ (pkind mp = Pawn ->
           isValidPawnMove b from to x ept epp = Done true).
Proof.
  unfold isValidMove, isValidMoveWith.
  destruct (inBounds (sr from) (sc from)) eqn:Hf; cbn [negb orb]; [|done].
  destruct (inBounds (sr to) (sc to)) eqn:Ht; cbn [negb orb]; [|done].
  apply inBounds_onBoard in Hf, Ht.
  destruct ((sr from =? sr to) && (sc from =? sc to)) eqn:Hsame; [done|].
  assert (Hne : from <> to).
  { apply square_neq. apply andb_false_iff in Hsame.
    rewrite !Z.eqb_neq in Hsame. done. }
  destruct (getCell b (sr from) (sc from)) as [[| |p]| |]; cbn; try done.
  destruct (color_eqb (pcolor p) x) eqn:Hcol; cbn [negb]; [|done].
  apply color_eqb_eq in Hcol.
  destruct (getCell b (sr to) (sc to)) as [target| |]; cbn; try done.
  destruct (truthy target && has_color target x) eqn:Hown; [done|].
  intros Hok. do 3 (split; [done|]). exists p, target.
  do 4 (split; [done|]). intros Hk. rewrite Hk in Hok. rewrite Hcol in Hok.
  destruct (isValidPawnMove b from to x ept epp) as [[|]| |]; by cbn in Hok.
Qed.

Lemma apiMove_Accepted (g g' : game) (f t : option square) :
  apiMove g f t = Done (g', Accepted) ->
  exists from to mp dest,
    f = Some from /\ t = Some to /\ isOver g = false
    /\ getCell (board g) (sr from) (sc from) = Done (JStr mp)
    /\ getCell (board g) (sr to) (sc to) = Done dest
    /\ isValidMove (board g) from to (turn g)
         (enPassantTarget g) (enPassantPawn g) = Done Ok
    /\ commitMove g from to mp (Some (pkind mp)) dest (negb (is_null dest))
         (isEnPassantCaptureOf (JStr mp) dest from to
            (enPassantTarget g) (enPassantPawn g))
         (enPassantPawn g) = Done (g', Accepted).
Proof.
  unfold apiMove. destruct (isOver g) eqn:Hover; [done|].
  destruct f as [from|], t as [to|]; try done.
  destruct (getCell (board g) (sr from) (sc from)) as [piece| |] eqn:Hp;
    cbn; try done.
  destruct (getCell (board g) (sr to) (sc to)) as [dest| |] eqn:Hd;
    cbn; try done.
  destruct (isValidMove _ _ _ _ _ _) as [[|why]| |] eqn:Hv; cbn; try done.
  destruct piece as [| |mp]; try done.
  intros Hc. exists from, to, mp, dest. done.
Qed.

Lemma apiMove_Rejected (g g' : game) (f t : option square) (why : reason) :
  apiMove g f t = Done (g', Rejected why) -> g' = g.
Proof.
  unfold apiMove. destruct (isOver g); [by intros [= <-]|].
  destruct f as [from|], t as [to|]; try by intros [= <-].
  destruct (getCell (board g) (sr from) (sc from)) as [piece| |];
    cbn; try done.
  destruct (getCell (board g) (sr to) (sc to)) as [dest| |]; cbn; try done.
  destruct (isValidMove _ _ _ _ _ _) as [[|why']| |]; cbn; try done;
    [|by intros [= <-]].
  destruct piece as [| |mp]; try done.
  unfold commitMove.
  repeat (match goal with
          | |- context [mbind _ ?m] => destruct m; cbn; try done
          end).
Qed.

Lemma openWindow_spec (mp : piece) (from to : square) (g : game) :
  openWindow mp from to g =
  if isDoubleStep mp from to
  then set_enPassantPawn (Some (Sq (sr to) (sc to)))
         (set_enPassantTarget
            (Some (Sq (sr from + dirOf (pcolor mp)) (sc from))) g)
  else g.
Proof.
  unfold openWindow, isDoubleStep.
  by destruct (kind_eqb (pkind mp) Pawn).
Qed.

Lemma promotion_inv (mp : piece) (to : square) (g g' : game) (did : bool) :
  promotion mp to g = Done (g', did) ->
  did = promotes mp to /\ exists b', g' = set_board b' g.
Proof.
  unfold promotion, promotes.
  destruct (kind_eqb (pkind mp) Pawn); cbn [andb].
  - destruct (sr to =? promoteRowOf (pcolor mp)).
    + destruct (write _ _ _ _) as [g1| |] eqn:Hw; cbn; try done.
      intros [= <- <-]. split; [done|]. eauto using write_inv.
    + intros [= <- <-]. split; [done|]. exists (board g). by destruct g.
  - intros [= <- <-]. split; [done|]. exists (board g). by destruct g.
Qed.

(** Everything but the board after an accepted move. *)
Lemma commitMove_fields (g g' : game) (from to : square) (mp : piece)
    (pt : option kind) (dest : jsval) (cap epc : bool)
    (epp : option square) (resp : response) :
  commitMove g from to mp pt dest cap epc epp = Done (g', resp) ->
  resp = Accepted
  /\ turn g' = (if color_eqb (turn g) White then Black else White)
  /\ moveNumber g' =
       (if color_eqb (turn g) White then moveNumber g else moveNumber g + 1)
  /\ isOver g' = (if truthy dest && has_kind dest King then true else isOver g)
  /\ enPassantTarget g' =
       (if isDoubleStep mp from to
        then Some (Sq (sr from + dirOf (pcolor mp)) (sc from)) else None)
  /\ enPassantPawn g' =
       (if isDoubleStep mp from to then Some (Sq (sr to) (sc to)) else None)
  /\ moves g' =
       moves g ++ [notationOf pt cap (isOver g') (promotes mp to) epc from to].
Proof.
  unfold commitMove.
  destruct (write (sr to) (sc to) (Some mp) g) as [g1| |] eqn:H1; cbn; try done.
  destruct (write (sr from) (sc from) None g1) as [g2| |] eqn:H2;
    cbn; try done.
  apply write_inv in H1 as [b1 ->]. apply write_inv in H2 as [b2 ->].
  match goal with
  | |- context [mbind _ ?m] => destruct m as [g3| |] eqn:H3; cbn; try done
  end.
  assert (exists b3, g3 = set_board b3 g) as [b3 ->].
  { destruct epc.
    - destruct epp as [v|]; [|done]. apply write_inv in H3 as [b3 ->]. eauto.
    - injection H3 as <-. eauto. }
  rewrite openWindow_spec.
  match goal with
  | |- context [mbind _ ?m] => destruct m as [[g4 did]| |] eqn:H4; cbn; try done
  end.
  apply promotion_inv in H4 as [-> [b4 ->]].
  intros [= <- <-]. split; [done|].
  clear H3. destruct g as [b0 x n o et ev ms].
  destruct (isDoubleStep mp from to), (truthy dest && has_kind dest King), x;
    cbv [flipTurn set_isOver set_board set_turn set_moveNumber
         set_enPassantPawn set_enPassantTarget push_move
         turn moveNumber isOver enPassantTarget enPassantPawn moves board
         color_eqb];
    repeat split; reflexivity.
Qed.

Lemma board_openWindow (mp : piece) (from to : square) (g : game) :
  board (openWindow mp from to g) = board g.
Proof. rewrite openWindow_spec. by destruct (isDoubleStep mp from to). Qed.

Lemma board_flipTurn (g : game) : board (flipTurn g) = board g.
Proof. unfold flipTurn. by destruct (color_eqb _ _). Qed.

Lemma commitMove_board (g : game) (from to : square) (mp : piece)
    (pt : option kind) (dest : jsval) (cap epc : bool) (epp : option square) :
  wf_board (board g) -> onBoard from -> onBoard to ->
  (epc = true -> exists v, epp = Some v /\ onBoard v) ->
  exists g',
    commitMove g from to mp pt dest cap epc epp = Done (g', Accepted)
    /\ wf_board (board g')
    /\ forall r c,
         getCell (board g') r c
         = boardAfter (board g) from to mp epc epp r c.
Proof.
  intros Hwf Hf Ht Hv. unfold commitMove.
  destruct (write_onBoard g to (Some mp) Hwf Ht) as (b1 & -> & Hwf1 & Hr1).
  cbn [mbind exec_bind].
  destruct (write_onBoard (set_board b1 g) from None Hwf1 Hf)
    as (b2 & -> & Hwf2 & Hr2).
  cbn [mbind exec_bind]. cbn [set_board board] in Hr2.
  assert (exists b3,
    (if epc then
       match epp with
       | Some v => write (sr v) (sc v) None (set_board b2 (set_board b1 g))
       | None => TypeError
       end
     else Done (set_board b2 (set_board b1 g))) = Done (set_board b3 g)
    /\ wf_board b3
    /\ forall r c, getCell b3 r c =
         if epc && match epp with Some v => isSq r c v | None => false end
         then Done JNull else getCell b2 r c) as (b3 & -> & Hwf3 & Hr3).
  { destruct epc.
    - destruct (Hv eq_refl) as (v & -> & Hvb).
      destruct (write_onBoard (set_board b2 (set_board b1 g)) v None Hwf2 Hvb)
        as (b3 & -> & Hwf3 & Hr3).
      exists b3. split; [by destruct g|]. split; [done|].
      intros r c. rewrite Hr3. done.
    - exists b2. split; [by destruct g|]. done. }
  cbn [mbind exec_bind].
  set (g4 := openWindow mp from to
               (set_enPassantPawn None (set_enPassantTarget None
                  (set_board b3 g)))).
  assert (Hg4 : board g4 = b3).
  { unfold g4. rewrite board_openWindow. by destruct g. }
  assert (exists g5,
    promotion mp to g4 = Done (g5, promotes mp to)
    /\ wf_board (board g5)
    /\ forall r c, getCell (board g5) r c =
         if promotes mp to && isSq r c to
         then Done (JStr (Piece (pcolor mp) Queen)) else getCell b3 r c)
    as (g5 & -> & Hwf5 & Hr5).
  { unfold promotion, promotes.
    destruct (kind_eqb (pkind mp) Pawn); cbn [andb];
      [|by (exists g4); rewrite Hg4].
    destruct (sr to =? promoteRowOf (pcolor mp)); cbn [andb];
      [|by (exists g4); rewrite Hg4].
    destruct (write_onBoard g4 to (Some (Piece (pcolor mp) Queen)))
      as (b5 & -> & Hwf5 & Hr5); [by rewrite Hg4|done|].
    exists (set_board b5 g4). cbn [mbind exec_bind set_board board].
    split; [done|]. split; [done|]. intros r c. rewrite Hr5, Hg4. done. }
  cbn [mbind exec_bind fst snd].
  eexists. split; [reflexivity|].
  cbn [push_move board]. rewrite board_flipTurn.
  assert (Hb : forall o : bool, board (if o then set_isOver true g5 else g5) = board g5)
    by (by intros []).
  rewrite Hb. split; [done|].
  intros r c. rewrite Hr5, Hr3, Hr2, Hr1. unfold boardAfter, isSq.
  cbn [jsOf set_board board]. done.
Qed.

(** ** The en-passant clause *)

Lemma enPassantClause_true (b : Board) (from to : square) (x : color)
    (target : jsval) (ept epp : option square) :
  enPassantClause b from to x target ept epp = Done true <->
  exists v p,
    ept = Some to /\ epp = Some v /\ target = JNull
    /\ sr v = sr from /\ sc v = sc to
    /\ getCell b (sr v) (sc v) = Done (JStr p)
    /\ pkind p = Pawn /\ pcolor p <> x.
Proof.
  unfold enPassantClause. split.
  - destruct ept as [t|], epp as [v|]; try done.
    destruct target; cbn [is_null andb]; try done.
    destruct (Z.eqb_spec (sr to) (sr t)); cbn [andb]; [|done].
    destruct (Z.eqb_spec (sc to) (sc t)); cbn [andb]; [|done].
    destruct (Z.eqb_spec (sr v) (sr from)); cbn [andb]; [|done].
    destruct (Z.eqb_spec (sc v) (sc to)); cbn [andb]; [|done].
    destruct (getCell b (sr v) (sc v)) as [[| |p]| |] eqn:Hg; cbn; try done.
    unfold has_kind, has_color, type_is. cbn [typeOf colorOf].
    destruct (kind_eqb (pkind p) Pawn) eqn:Hk; cbn [andb]; [|done].
    destruct (color_eqb (pcolor p) x) eqn:Hc; cbn [negb]; [done|].
    intros _. exists v, p. apply kind_eqb_eq in Hk. apply color_eqb_neq in Hc.
    repeat split; try done. destruct t, to; simpl in *; congruence.
  - intros (v & p & -> & -> & -> & Hvr & Hvc & Hp & Hk & Hc).
    cbn [is_null andb]. rewrite !Z.eqb_refl. cbn [andb].
    rewrite Hvr, Hvc, !Z.eqb_refl. cbn [andb].
    rewrite <- Hvr, <- Hvc, Hp. cbn.
    unfold has_kind, has_color, type_is. cbn [typeOf colorOf].
    apply kind_eqb_eq in Hk. apply color_eqb_neq in Hc. by rewrite Hk, Hc.
Qed.

(** The handler's classification, spelt out. *)
Lemma isEnPassantCaptureOf_true (mp : piece) (dest : jsval)
    (from to : square) (ept epp : option square) :
  isEnPassantCaptureOf (JStr mp) dest from to ept epp = true <->
  exists v,
    pkind mp = Pawn /\ dest = JNull
    /\ Z.abs (sc to - sc from) = 1 /\ sr to - sr from = dirOf (pcolor mp)
    /\ ept = Some to /\ epp = Some v /\ sr v = sr from /\ sc v = sc to.
Proof.
  unfold isEnPassantCaptureOf. split.
  - destruct ept as [t|], epp as [v|]; try done.
    rewrite !andb_true_iff, !Z.eqb_eq, kind_eqb_eq.
    intros [[[[[[[? ?] ?] ?] ?] ?] ?] ?]. exists v.
    repeat split; try done.
    + by destruct dest.
    + destruct t, to; simpl in *; congruence.
  - intros (v & Hk & -> & Hdc & Hdr & -> & -> & Hvr & Hvc).
    rewrite !andb_true_iff, !Z.eqb_eq, kind_eqb_eq. done.
Qed.

(** ** Accepted moves on a well-formed board *)

Lemma apiMove_accepted (g g' : game) (f t : option square) :
  wf_board (board g) ->
  apiMove g f t = Done (g', Accepted) ->
  exists from to mp dest,
    f = Some from /\ t = Some to /\ accepted g from to mp dest g'.
Proof.
  intros Hwf Hacc.
  apply apiMove_Accepted in Hacc
    as (from & to & mp & dest & -> & -> & Hlive & Hp & Hd & Hv & Hc).
  exists from, to, mp, dest. do 2 (split; [done|]).
  apply isValidMove_Ok in Hv
    as (Hf & Ht & Hne & mp' & dest' & Hp' & Hcol & Hd' & Hown & Hpawn).
  rewrite Hp in Hp'. injection Hp' as <-.
  rewrite Hd in Hd'. injection Hd' as <-.
  destruct (commitMove_board g from to mp (Some (pkind mp)) dest
              (negb (is_null dest))
              (isEnPassantCaptureOf (JStr mp) dest from to
                 (enPassantTarget g) (enPassantPawn g))
              (enPassantPawn g) Hwf Hf Ht) as (g'' & Hc' & Hwf' & Hb).
  { intros Hepc. apply isEnPassantCaptureOf_true in Hepc
      as (v & _ & _ & _ & _ & _ & Hv & Hvr & Hvc).
    exists v. split; [done|]. destruct Hf, Ht. unfold onBoard. lia. }
  rewrite Hc in Hc'. injection Hc' as <-.
  split; try done.
  - destruct (getCell_onBoard (board g) to Hwf Ht) as [[q|] Hq];
      rewrite Hq in Hd; injection Hd as <-; [right|by left].
    exists q. split; [done|]. cbn in Hown.
    unfold has_color in Hown. cbn in Hown. by apply color_eqb_neq.
  - by rewrite Hcol.
Qed.

(** The board stays well formed, whatever the answer. *)
Lemma apiMove_wf (g g' : game) (f t : option square) (resp : response) :
  wf_board (board g) -> apiMove g f t = Done (g', resp) ->
  wf_board (board g').
Proof.
  intros Hwf Hm. destruct resp as [|why].
  - apply apiMove_accepted in Hm as (? & ? & ? & ? & _ & _ & Hacc); [|done].
    apply Hacc.
  - by apply apiMove_Rejected in Hm as ->.
Qed.

(** When the handler classifies an accepted move as an en-passant
    capture, the validator has accepted it through the en-passant
    clause. *)
Lemma accepted_enPassant (g g' : game) (from to : square) (mp : piece)
    (dest : jsval) :
  accepted g from to mp dest g' ->
  isEnPassantCaptureOf (JStr mp) dest from to
    (enPassantTarget g) (enPassantPawn g) = true ->
  enPassantClause (board g) from to (pcolor mp) dest
    (enPassantTarget g) (enPassantPawn g) = Done true.
Proof.
  intros Hacc Hepc.
  apply isEnPassantCaptureOf_true in Hepc
    as (v & Hk & -> & Hdc & Hdr & Hept & Hepp & Hvr & Hvc).
  pose proof (acc_pawn _ _ _ _ _ _ Hacc Hk) as Hp.
  unfold isValidPawnMove in Hp.
  rewrite (acc_dest _ _ _ _ _ _ Hacc) in Hp. cbn [mbind exec_bind] in Hp.
  destruct (Z.eqb_spec (sc to - sc from) 0); [lia|].
  destruct (Z.eqb_spec (Z.abs (sc to - sc from)) 1); [|lia].
  destruct (Z.eqb_spec (sr to - sr from) (dirOf (pcolor mp))); [|lia].
  exact Hp.
Qed.

(** ** Claims about the handler *)

(** C4. An accepted move whose captured piece (by ordinary capture or by
    en-passant removal) is a King sets the game-over flag; and once the
    flag is set every submission, whatever it holds, is answered with the
    game-over reason and the state is returned as it was, for the next
    submission as for any later one. *)
Theorem king_capture_ends_game (g : game) :
  (wf_board (board g) ->
   forall from to g',
     apiMove g (Some from) (Some to) = Done (g', Accepted) ->
     capturesKing g from to -> isOver g' = true)
  /\ (isOver g = true ->
      (forall f t, apiMove g f t = Done (g, Rejected GameOver))
      /\ forall reqs,
           serve g reqs = Done (g, map (fun _ => Rejected GameOver) reqs)).
Proof.
  split.
  - intros Hwf from to g' Hm Hk.
    destruct (apiMove_accepted g g' _ _ Hwf Hm)
      as (from' & to' & mp & dest & [= <-] & [= <-] & Hacc).
    destruct (commitMove_fields _ _ _ _ _ _ _ _ _ _ _ (acc_commit _ _ _ _ _ _ Hacc))
      as (_ & _ & _ & Hover & _).
    rewrite Hover. destruct Hk as [(k & Hk & Hkk)|Hk].
    + unfold pieceAt in Hk. rewrite (acc_dest _ _ _ _ _ _ Hacc) in Hk.
      injection Hk as ->. unfold has_kind, type_is. cbn. by rewrite Hkk.
    + destruct Hk as (mp' & dest' & v & k & Hmp & Hd & Hepc & Hv & Hvk & Hkk).
      unfold pieceAt in Hmp. rewrite (acc_piece _ _ _ _ _ _ Hacc) in Hmp.
      injection Hmp as <-.
      rewrite (acc_dest _ _ _ _ _ _ Hacc) in Hd. injection Hd as <-.
      apply (accepted_enPassant _ _ _ _ _ _ Hacc) in Hepc.
      apply enPassantClause_true in Hepc
        as (v' & p & _ & Hv' & _ & _ & _ & Hp & Hpk & _).
      rewrite Hv in Hv'. injection Hv' as <-.
      unfold pieceAt in Hvk. rewrite Hp in Hvk. injection Hvk as ->.
      congruence.
  - intros Hover.
    assert (Hone : forall f t, apiMove g f t = Done (g, Rejected GameOver)).
    { intros f t. unfold apiMove. by rewrite Hover. }
    split; [exact Hone|].
    intros reqs. induction reqs as [|[f t] rest IH]; [done|].
    cbn [serve]. rewrite Hone. cbn [mbind exec_bind fst snd].
    rewrite IH. done.
Qed.

(** C5. A rejected submission, whether rejected by the over-check or by the
    validator, leaves the board, the turn, the move number, the en-passant
    window, the game-over flag and the history as they were. *)
Theorem rejection_changes_nothing (g g' : game) (f t : option square)
    (why : reason) :
  apiMove g f t = Done (g', Rejected why) ->
  board g' = board g /\ turn g' = turn g /\ moveNumber g' = moveNumber g
  /\ enPassantTarget g' = enPassantTarget g
  /\ enPassantPawn g' = enPassantPawn g
  /\ isOver g' = isOver g /\ moves g' = moves g.
Proof. intros Hm. by apply apiMove_Rejected in Hm as ->. Qed.

(** C8. After every accepted move the turn is the other colour, and the
    move number has grown by one exactly when the turn is White again; so
    from move number 1 with White to move, White's move leaves it at 1 and
    Black's accepted reply makes it 2. *)
Theorem turn_flips_and_moves_count (g g' : game) (f t : option square) :
  apiMove g f t = Done (g', Accepted) ->
  turn g' = other (turn g)
  /\ moveNumber g' =
       match turn g' with
       | White => moveNumber g + 1
       | Black => moveNumber g
       end
  /\ (turn g = White -> moveNumber g = 1 ->
      moveNumber g' = 1
      /\ forall f2 t2 g'',
           apiMove g' f2 t2 = Done (g'', Accepted) -> moveNumber g'' = 2).
Proof.
  assert (Hstep : forall g g' f t,
    apiMove g f t = Done (g', Accepted) ->
    turn g' = other (turn g)
    /\ moveNumber g' =
         match turn g' with
         | White => moveNumber g + 1
         | Black => moveNumber g
         end).
  { clear. intros g g' f t Hm.
    apply apiMove_Accepted in Hm as (? & ? & ? & ? & _ & _ & _ & _ & _ & _ & Hc).
    apply commitMove_fields in Hc as (_ & Ht & Hn & _).
    rewrite Ht, Hn. by destruct (turn g). }
  intros Hm. destruct (Hstep _ _ _ _ Hm) as [Ht Hn].
  split; [done|]. split; [done|].
  intros Hw H1. rewrite Hw in Ht. rewrite Ht in Hn. split; [simpl in Hn; lia|].
  intros f2 t2 g'' Hm2. destruct (Hstep _ _ _ _ Hm2) as [Ht2 Hn2].
  rewrite Ht in Ht2. rewrite Ht2 in Hn2. simpl in *. lia.
Qed.

Lemma isSq_refl (s : square) : isSq (sr s) (sc s) s = true.
Proof. unfold isSq. by rewrite !Z.eqb_refl. Qed.

Lemma isSq_neq (s t : square) : s <> t -> isSq (sr s) (sc s) t = false.
Proof.
  intros Hne. apply square_neq in Hne. unfold isSq.
  apply andb_false_iff. rewrite !Z.eqb_neq. done.
Qed.

(** On an accepted move the en-passant victim, when the handler removes
    one, is neither the origin nor the destination. *)
Lemma victim_elsewhere (mp : piece) (dest : jsval) (from to v : square)
    (ept epp : option square) :
  isEnPassantCaptureOf (JStr mp) dest from to ept epp = true ->
  epp = Some v -> v <> from /\ v <> to.
Proof.
  intros Hepc Hv. apply isEnPassantCaptureOf_true in Hepc
    as (v' & _ & _ & Hdc & Hdr & _ & Hv' & Hvr & Hvc).
  rewrite Hv in Hv'. injection Hv' as <-.
  split; apply square_neq; destruct (pcolor mp); simpl in *; lia.
Qed.

(** The destination square after an accepted move. *)
Lemma accepted_destination (g g' : game) (from to : square) (mp : piece)
    (dest : jsval) :
  accepted g from to mp dest g' ->
  pieceAt (board g') to
    (if promotes mp to then Piece (pcolor mp) Queen else mp).
Proof.
  intros Hacc. unfold pieceAt. rewrite (acc_board _ _ _ _ _ _ Hacc).
  unfold boardAfter. rewrite isSq_refl, andb_true_r.
  destruct (promotes mp to); [done|].
  destruct (isEnPassantCaptureOf _ _ _ _ _ _) eqn:Hepc; cbn [andb].
  - destruct (enPassantPawn g) as [v|] eqn:Hv.
    + destruct (victim_elsewhere _ _ _ _ _ _ _ Hepc eq_refl) as [_ Hvt].
      rewrite isSq_neq by (by apply not_eq_sym).
      rewrite isSq_neq by (apply not_eq_sym, (acc_distinct _ _ _ _ _ _ Hacc)).
      done.
    + rewrite isSq_neq by (apply not_eq_sym, (acc_distinct _ _ _ _ _ _ Hacc)).
      done.
  - rewrite isSq_neq by (apply not_eq_sym, (acc_distinct _ _ _ _ _ _ Hacc)).
    done.
Qed.

(** C6. After an accepted move of a pawn onto the farthest rank from its
    own side (row 0 for White, row size-1 for Black), by push or by
    capture, the destination holds a Queen of the pawn's colour; a pawn
    that lands on any other row, and any piece that is not a pawn, stands
    on the destination unchanged. *)
Theorem promotion_to_queen (g g' : game) (from to : square) :
  wf_board (board g) ->
  apiMove g (Some from) (Some to) = Done (g', Accepted) ->
  exists mp,
    pieceAt (board g) from mp
    /\ (pkind mp = Pawn -> sr to = farthestRank (pcolor mp) ->
        pieceAt (board g') to (Piece (pcolor mp) Queen))
    /\ (pkind mp = Pawn -> sr to <> farthestRank (pcolor mp) ->
        pieceAt (board g') to mp)
    /\ (pkind mp <> Pawn -> pieceAt (board g') to mp).
Proof.
  intros Hwf Hm.
  destruct (apiMove_accepted g g' _ _ Hwf Hm)
    as (from' & to' & mp & dest & [= <-] & [= <-] & Hacc).
  exists mp. split; [apply Hacc|].
  pose proof (accepted_destination _ _ _ _ _ _ Hacc) as Hd.
  unfold promotes in Hd.
  assert (Hrow : farthestRank (pcolor mp) = promoteRowOf (pcolor mp))
    by (by destruct (pcolor mp)).
  rewrite Hrow.
  destruct (kind_eqb (pkind mp) Pawn) eqn:Hk; cbn [andb] in Hd.
  - destruct (Z.eqb_spec (sr to) (promoteRowOf (pcolor mp))).
    + apply kind_eqb_eq in Hk. repeat split; intros; done.
    + apply kind_eqb_eq in Hk. repeat split; intros; done.
  - assert (pkind mp <> Pawn).
    { intros Hp. apply kind_eqb_eq in Hp. congruence. }
    repeat split; done.
Qed.

(** C10. On every accepted move the handler's own en-passant
    classification holds exactly when the validator accepted the move
    through its en-passant clause (a pawn, a one-step forward diagonal,
    and the clause itself true).  When the flag is set, the victim square
    it empties is distinct from origin and destination and held a pawn of
    the opposing colour; when it is not set, no square other than origin
    and destination changes. *)
Theorem enPassant_flag_matches_validator (g g' : game) (from to : square) :
  wf_board (board g) ->
  apiMove g (Some from) (Some to) = Done (g', Accepted) ->
  exists mp dest,
    pieceAt (board g) from mp
    /\ getCell (board g) (sr to) (sc to) = Done dest
    /\ let flag := isEnPassantCaptureOf (JStr mp) dest from to
                     (enPassantTarget g) (enPassantPawn g) in
       (flag = true <->
          pkind mp = Pawn
          /\ Z.abs (sc to - sc from) = 1
          /\ sr to - sr from = dirOf (pcolor mp)
          /\ enPassantClause (board g) from to (pcolor mp) dest
               (enPassantTarget g) (enPassantPawn g) = Done true)
       /\ (flag = true ->
           exists v p,
             enPassantPawn g = Some v /\ v <> from /\ v <> to
             /\ pieceAt (board g) v p
             /\ pkind p = Pawn /\ pcolor p = other (pcolor mp)
             /\ emptyAt (board g') v)
       /\ (flag = false ->
           forall s, s <> from -> s <> to ->
             getCell (board g') (sr s) (sc s)
             = getCell (board g) (sr s) (sc s)).
Proof.
  intros Hwf Hm.
  destruct (apiMove_accepted g g' _ _ Hwf Hm)
    as (from' & to' & mp & dest & [= <-] & [= <-] & Hacc).
  exists mp, dest. split; [apply Hacc|]. split; [apply Hacc|].
  cbv zeta. split; [|split].
  - split.
    + intros Hepc. pose proof (accepted_enPassant _ _ _ _ _ _ Hacc Hepc).
      apply isEnPassantCaptureOf_true in Hepc as (v & ? & ? & ? & ? & _).
      done.
    + intros (Hk & Hdc & Hdr & Hcl).
      apply enPassantClause_true in Hcl
        as (v & p & ? & ? & ? & ? & ? & _).
      apply isEnPassantCaptureOf_true. exists v. done.
  - intros Hepc.
    pose proof (accepted_enPassant _ _ _ _ _ _ Hacc Hepc) as Hcl.
    apply enPassantClause_true in Hcl
      as (v & p & _ & Hv & _ & _ & _ & Hp & Hpk & Hpc).
    destruct (victim_elsewhere _ _ _ _ _ _ _ Hepc Hv) as [Hvf Hvt].
    exists v, p. repeat split; try done.
    + destruct (pcolor p), (pcolor mp); done.
    + unfold emptyAt. rewrite (acc_board _ _ _ _ _ _ Hacc).
      unfold boardAfter. rewrite Hepc, Hv, isSq_refl.
      rewrite (isSq_neq v to) by done. by rewrite andb_false_r.
  - intros Hepc s Hsf Hst. rewrite (acc_board _ _ _ _ _ _ Hacc).
    unfold boardAfter. rewrite Hepc. cbn [andb].
    rewrite (isSq_neq s to), (isSq_neq s from) by done.
    by rewrite andb_false_r.
Qed.

Lemma pieceAt_onBoard (b : Board) (s : square) (p : piece) :
  wf_board b -> pieceAt b s p -> onBoard s.
Proof. intros Hwf Hp. by apply (read_onBoard b s (Some p)). Qed.

Lemma emptyAt_onBoard (b : Board) (s : square) :
  wf_board b -> emptyAt b s -> onBoard s.
Proof. intros Hwf Hp. by apply (read_onBoard b s None). Qed.

(** [isValidMove] on a pawn of the side to move whose destination does
    not hold a piece of its own colour. *)
Lemma isValidMove_pawn (b : Board) (from to : square) (x : color)
    (ept epp : option square) (ok : bool) :
  wf_board b -> onBoard from -> onBoard to -> from <> to ->
  pieceAt b from (Piece x Pawn) ->
  ~ (exists q, pieceAt b to q /\ pcolor q = x) ->
  isValidPawnMove b from to x ept epp = Done ok ->
  isValidMove b from to x ept epp = Done (judge ok IllegalPawn).
Proof.
  intros Hwf Hf Ht Hne Hp Hown Hok.
  unfold isValidMove, isValidMoveWith.
  apply inBounds_onBoard in Hf, Ht. rewrite Hf, Ht. cbn [negb orb].
  apply square_neq in Hne.
  replace ((sr from =? sr to) && (sc from =? sc to)) with false
    by (symmetry; apply andb_false_iff; rewrite !Z.eqb_neq; done).
  unfold pieceAt in Hp. rewrite Hp. cbn [pcolor pkind].
  apply inBounds_onBoard in Ht.
  destruct (getCell_onBoard b to Hwf Ht) as [[q|] Hq]; rewrite Hq;
    cbn [mbind exec_bind jsOf truthy andb pkind pcolor].
  - unfold has_color. cbn [colorOf].
    destruct (color_eqb (pcolor q) x) eqn:Hqx.
    + exfalso. apply Hown. exists q. by apply color_eqb_eq in Hqx.
    + rewrite color_eqb_refl. cbn [negb]. by rewrite Hok.
  - rewrite color_eqb_refl. cbn [negb]. by rewrite Hok.
Qed.

(** C1. On the board the pawn validator accepts exactly the moves of the
    pawn rule: one step forward into an empty square; two steps forward
    from the starting rank with the skipped and the destination squares
    empty; a one-step forward diagonal onto an opposing piece; or that
    diagonal onto an empty square that is the en-passant target, the victim
    square being on the origin row and destination column and holding an
    opposing pawn.  Through [isValidMove], a pawn move that passed the
    earlier checks is accepted on these moves and is an illegal pawn move
    on all others. *)
Theorem pawn_validator_exact (b : Board) (from to : square) (x : color)
    (ept epp : option square) :
  wf_board b -> onBoard from -> onBoard to ->
  (exists ok, isValidPawnMove b from to x ept epp = Done ok
              /\ (ok = true <-> pawnRule b from to x ept epp))
  /\ (from <> to -> pieceAt b from (Piece x Pawn) ->
      ~ (exists q, pieceAt b to q /\ pcolor q = x) ->
      (pawnRule b from to x ept epp ->
       isValidMove b from to x ept epp = Done Ok)
      /\ (~ pawnRule b from to x ept epp ->
          isValidMove b from to x ept epp = Done (Fail IllegalPawn))).
Proof.
  intros Hwf Hf Ht.
  destruct (isValidPawnMove_spec b from to x ept epp Hwf Hf Ht)
    as (ok & Hok & Hiff).
  split; [by exists ok|].
  intros Hne Hp Hown.
  rewrite (isValidMove_pawn b from to x ept epp ok) by done.
  split.
  - intros Hr. apply Hiff in Hr. by rewrite Hr.
  - intros Hr. destruct ok; [|done]. exfalso. by apply Hr, Hiff.
Qed.

(** ** The en-passant window over time *)

Lemma isDoubleStep_doubleStep (mp : piece) (from to : square) :
  onBoard to ->
  isDoubleStep mp from to = true <-> doubleStep mp from to.
Proof.
  intros [Hr _]. unfold isDoubleStep, doubleStep, SIZE in *.
  rewrite !andb_true_iff, !Z.eqb_eq, kind_eqb_eq.
  destruct (pcolor mp); simpl; unfold SIZE;
    (split; intros H; break; repeat split; try done; lia).
Qed.

(** Arithmetic on rows and columns once the colour is known. *)
Ltac rows :=
  unfold homeRow, startRowOf, dirOf, promoteRowOf, forward, startRank,
    farthestRank, onBoard, SIZE in *;
  simpl in *; lia.

(** A pawn move the validator accepts advances one or two rows. *)
Lemma accepted_pawn_rows (g g' : game) (from to : square) (mp : piece)
    (dest : jsval) :
  wf_board (board g) ->
  accepted g from to mp dest g' -> pkind mp = Pawn ->
  sr to = sr from + dirOf (pcolor mp)
  \/ (sr to = sr from + 2 * dirOf (pcolor mp)
      /\ sr from = startRowOf (pcolor mp)).
Proof.
  intros Hwf Hacc Hk.
  pose proof (acc_pawn _ _ _ _ _ _ Hacc Hk) as Hp.
  destruct (isValidPawnMove_spec (board g) from to (pcolor mp)
              (enPassantTarget g) (enPassantPawn g) Hwf
              (acc_from _ _ _ _ _ _ Hacc) (acc_to _ _ _ _ _ _ Hacc))
    as (ok & Hok & Hiff).
  rewrite Hp in Hok. injection Hok as <-.
  destruct (proj1 Hiff eq_refl) as [H|[H|[H|H]]];
    unfold forward, startRank in H; destruct (pcolor mp);
    simpl in *; lia.
Qed.

Lemma accepted_noPawnAtHome (g g' : game) (from to : square) (mp : piece)
    (dest : jsval) :
  wf_board (board g) -> accepted g from to mp dest g' ->
  noPawnAtHome (board g) -> noPawnAtHome (board g').
Proof.
  intros Hwf Hacc Hinv c p Hp Hk.
  unfold pieceAt in Hp. rewrite (acc_board _ _ _ _ _ _ Hacc) in Hp.
  unfold boardAfter in Hp. cbn [sr sc] in Hp.
  destruct (promotes mp to && _); [injection Hp as <-; done|].
  destruct (_ && _); [done|].
  destruct (isSq _ _ from); [done|].
  destruct (isSq _ _ to) eqn:Hto.
  - injection Hp as ->.
    apply andb_true_iff in Hto as [Hr _]. apply Z.eqb_eq in Hr.
    destruct (acc_from _ _ _ _ _ _ Hacc) as [? _].
    destruct (accepted_pawn_rows _ _ _ _ _ _ Hwf Hacc Hk) as [?|[? ?]];
      destruct (pcolor p); rows.
  - by apply (Hinv c p).
Qed.

Lemma accepted_vacated (g g' : game) (from to : square) (mp : piece)
    (dest : jsval) (x : color) (c : Z) :
  wf_board (board g) -> accepted g from to mp dest g' ->
  noPawnAtHome (board g) ->
  vacated (board g) x c -> vacated (board g') x c.
Proof.
  intros Hwf Hacc Hinv Hvac p Hp [Hk Hx].
  unfold pieceAt in Hp. rewrite (acc_board _ _ _ _ _ _ Hacc) in Hp.
  unfold boardAfter in Hp. cbn [sr sc] in Hp.
  destruct (promotes mp to && _); [injection Hp as <-; done|].
  destruct (_ && _); [done|].
  destruct (isSq _ _ from); [done|].
  destruct (isSq _ _ to) eqn:Hto.
  - injection Hp as ->.
    apply andb_true_iff in Hto as [Hr Hc]. apply Z.eqb_eq in Hr, Hc.
    destruct (accepted_pawn_rows _ _ _ _ _ _ Hwf Hacc Hk) as [Hone|[Htwo ?]].
    + apply (Hinv (sc from) p); [|done].
      replace (Sq (homeRow (pcolor p)) (sc from)) with from;
        [apply Hacc|].
      destruct from as [fr fc]. simpl in *. f_equal.
      rewrite Hx in *. destruct x; rows.
    + rewrite Hx in *. destruct x; rows.
  - by apply (Hvac p).
Qed.

(** The window a move opens names a starting square the move has left. *)
Lemma accepted_window (g g' : game) (from to : square) (mp : piece)
    (dest : jsval) :
  accepted g from to mp dest g' ->
  (enPassantTarget g' =
     if isDoubleStep mp from to
     then Some (Sq (sr from + dirOf (pcolor mp)) (sc from)) else None)
  /\ (enPassantPawn g' =
        if isDoubleStep mp from to then Some (Sq (sr to) (sc to)) else None).
Proof.
  intros Hacc.
  destruct (commitMove_fields _ _ _ _ _ _ _ _ _ _ _ (acc_commit _ _ _ _ _ _ Hacc))
    as (_ & _ & _ & _ & Ht & Hv & _).
  done.
Qed.

Lemma window_not_vacated (g g' : game) (from to : square) (mp : piece)
    (dest : jsval) (x : color) (c : Z) :
  accepted g from to mp dest g' ->
  vacated (board g) x c ->
  enPassantTarget g' <> Some (Sq (startRowOf x + dirOf x) c).
Proof.
  intros Hacc Hvac Ht.
  rewrite (proj1 (accepted_window _ _ _ _ _ _ Hacc)) in Ht.
  destruct (isDoubleStep mp from to) eqn:Hds; [|done].
  injection Ht as Hr Hc.
  unfold isDoubleStep in Hds.
  rewrite !andb_true_iff, !Z.eqb_eq, kind_eqb_eq in Hds.
  destruct Hds as [[[Hk Hfr] _] _].
  assert (Hx : pcolor mp = x).
  { destruct (pcolor mp), x; try done; rows. }
  apply (Hvac mp); [|done].
  replace (Sq (startRowOf x) c) with from; [apply Hacc|].
  destruct from as [fr fc]. simpl in *. f_equal; [|done]. by rewrite <- Hx.
Qed.

Lemma window_opens_vacated (g g' : game) (from to : square) (mp : piece)
    (dest : jsval) (T : square) :
  accepted g from to mp dest g' ->
  enPassantTarget g' = Some T ->
  exists x c, T = Sq (startRowOf x + dirOf x) c /\ vacated (board g') x c.
Proof.
  intros Hacc Ht.
  rewrite (proj1 (accepted_window _ _ _ _ _ _ Hacc)) in Ht.
  destruct (isDoubleStep mp from to) eqn:Hds; [|done].
  injection Ht as <-.
  unfold isDoubleStep in Hds.
  rewrite !andb_true_iff, !Z.eqb_eq, kind_eqb_eq in Hds.
  destruct Hds as [[[Hk Hfr] Hdr] Hdc].
  exists (pcolor mp), (sc from). split; [by rewrite Hfr|].
  intros p Hp _. unfold pieceAt in Hp.
  rewrite (acc_board _ _ _ _ _ _ Hacc) in Hp. unfold boardAfter in Hp.
  cbn [sr sc] in Hp. rewrite <- Hfr in Hp.
  rewrite (isSq_neq from to) in Hp by apply Hacc.
  rewrite andb_false_r in Hp.
  assert (Hepc : isEnPassantCaptureOf (JStr mp) dest from to
                   (enPassantTarget g) (enPassantPawn g) = false).
  { destruct (isEnPassantCaptureOf _ _ _ _ _ _) eqn:He; [|done].
    apply isEnPassantCaptureOf_true in He as (? & _ & _ & ? & _). lia. }
  rewrite Hepc, isSq_refl in Hp. done.
Qed.

Lemma play_sound (ms : list (square * square)) (g g2 : game) :
  wf_board (board g) -> noPawnAtHome (board g) ->
  play g ms = Some g2 ->
  wf_board (board g2) /\ noPawnAtHome (board g2).
Proof.
  revert g. induction ms as [|[from to] rest IH]; intros g Hwf Hinv Hplay.
  - by injection Hplay as <-.
  - cbn [play] in Hplay.
    destruct (apiMove g (Some from) (Some to)) as [[g1 [|why]]| |] eqn:Hm;
      try done.
    destruct (apiMove_accepted g g1 _ _ Hwf Hm)
      as (from' & to' & mp & dest & [= <-] & [= <-] & Hacc).
    apply (IH g1); [apply Hacc| |done].
    by apply (accepted_noPawnAtHome g g1 from to mp dest).
Qed.

(** Once a later move has been accepted, the window no longer names the
    square a pawn of colour [x] skipped in column [c]. *)
Lemma stale_target (ms : list (square * square)) (g g2 : game)
    (x : color) (c : Z) :
  wf_board (board g) -> noPawnAtHome (board g) ->
  vacated (board g) x c ->
  ms <> [] -> play g ms = Some g2 ->
  enPassantTarget g2 <> Some (Sq (startRowOf x + dirOf x) c).
Proof.
  revert g. induction ms as [|[from to] rest IH];
    intros g Hwf Hinv Hvac Hne Hplay; [done|].
  cbn [play] in Hplay.
  destruct (apiMove g (Some from) (Some to)) as [[g1 [|why]]| |] eqn:Hm;
    try done.
  destruct (apiMove_accepted g g1 _ _ Hwf Hm)
    as (from' & to' & mp & dest & [= <-] & [= <-] & Hacc).
  destruct rest as [|m rest].
  - injection Hplay as <-. by apply (window_not_vacated g g1 from to mp dest).
  - apply (IH g1); try done.
    + apply Hacc.
    + by apply (accepted_noPawnAtHome g g1 from to mp dest).
    + by apply (accepted_vacated g g1 from to mp dest).
Qed.

(** A pawn's diagonal move onto an empty square that is not the current
    en-passant target is an illegal pawn move. *)
Lemma stale_capture_rejected (b : Board) (a T : square) (x : color)
    (ept epp : option square) :
  wf_board b -> pieceAt b a (Piece x Pawn) -> emptyAt b T ->
  sc a <> sc T -> ept <> Some T ->
  isValidMove b a T x ept epp = Done (Fail IllegalPawn).
Proof.
  intros Hwf Hp He Hc Hept.
  assert (Ha : onBoard a) by eauto using pieceAt_onBoard.
  assert (HT : onBoard T) by eauto using emptyAt_onBoard.
  destruct (isValidPawnMove_spec b a T x ept epp Hwf Ha HT)
    as (ok & Hok & Hiff).
  assert (ok = false) as ->.
  { destruct ok; [|done]. exfalso.
    destruct (proj1 Hiff eq_refl) as [H|[H|[H|H]]].
    - lia.
    - lia.
    - destruct H as (_ & _ & p & Hq & _). unfold pieceAt, emptyAt in *.
      congruence.
    - by destruct H as (_ & _ & _ & ? & _). }
  rewrite (isValidMove_pawn b a T x ept epp false); try done.
  - apply square_neq. by right.
  - intros (q & Hq & _). unfold pieceAt, emptyAt in *. congruence.
Qed.

Lemma apiMove_verdict_fail (g : game) (from to : square) (why : reason) :
  isOver g = false ->
  (exists v, getCell (board g) (sr from) (sc from) = Done v) ->
  (exists v, getCell (board g) (sr to) (sc to) = Done v) ->
  isValidMove (board g) from to (turn g)
    (enPassantTarget g) (enPassantPawn g) = Done (Fail why) ->
  apiMove g (Some from) (Some to) = Done (g, Rejected why).
Proof.
  intros Hlive [v Hv] [w Hw] Hverdict. unfold apiMove.
  rewrite Hlive, Hv, Hw. cbn [mbind exec_bind]. by rewrite Hverdict.
Qed.

(** C2. An accepted move clears the en-passant window and sets it again
    only for a pawn two-step advance from its starting rank along a single
    file: afterwards target and victim are non-null exactly for such a
    move, the target being the square skipped over and the victim the
    pawn's destination.  Hence an en-passant capture onto a target is open
    on the very next move only: after any further accepted move, a pawn's
    diagonal move onto that (empty) target is an illegal pawn move for the
    validator, and the handler rejects it. *)
Theorem enPassant_window_one_move (g g' : game) (from to : square) :
  wf_board (board g) ->
  apiMove g (Some from) (Some to) = Done (g', Accepted) ->
  exists mp,
    pieceAt (board g) from mp
    /\ (doubleStep mp from to ->
        enPassantTarget g'
          = Some (Sq (sr from + forward (pcolor mp)) (sc from))
        /\ enPassantPawn g' = Some to)
    /\ (~ doubleStep mp from to ->
        enPassantTarget g' = None /\ enPassantPawn g' = None)
    /\ (noPawnAtHome (board g) ->
        forall T ms g2 a,
          enPassantTarget g' = Some T ->
          ms <> [] -> play g' ms = Some g2 ->
          pieceAt (board g2) a (Piece (turn g2) Pawn) ->
          emptyAt (board g2) T -> sc a <> sc T ->
          isValidMove (board g2) a T (turn g2)
            (enPassantTarget g2) (enPassantPawn g2) = Done (Fail IllegalPawn)
          /\ apiMove g2 (Some a) (Some T)
             = Done (g2, Rejected (if isOver g2 then GameOver
                                   else IllegalPawn))).
Proof.
  intros Hwf Hm.
  destruct (apiMove_accepted g g' _ _ Hwf Hm)
    as (from' & to' & mp & dest & [= <-] & [= <-] & Hacc).
  exists mp. split; [apply Hacc|].
  destruct (accepted_window _ _ _ _ _ _ Hacc) as [Ht Hv].
  pose proof (isDoubleStep_doubleStep mp from to (acc_to _ _ _ _ _ _ Hacc))
    as Hds.
  split; [|split].
  - intros Hd. apply Hds in Hd. rewrite Ht, Hv, Hd.
    split; [reflexivity|]. by destruct to.
  - intros Hd. rewrite Ht, Hv.
    destruct (isDoubleStep mp from to); [|done]. exfalso. by apply Hd, Hds.
  - intros Hinv T ms g2 a HT Hms Hplay Hpawn Hempty Hcol.
    destruct (window_opens_vacated _ _ _ _ _ _ T Hacc HT)
      as (x & c & -> & Hvac).
    assert (Hinv' : noPawnAtHome (board g'))
      by (by apply (accepted_noPawnAtHome g g' from to mp dest)).
    pose proof (acc_wf _ _ _ _ _ _ Hacc) as Hwf'.
    pose proof (stale_target ms g' g2 x c Hwf' Hinv' Hvac Hms Hplay) as Hstale.
    destruct (play_sound ms g' g2 Hwf' Hinv' Hplay) as [Hwf2 _].
    pose proof (stale_capture_rejected (board g2) a _ (turn g2)
                  (enPassantTarget g2) (enPassantPawn g2)
                  Hwf2 Hpawn Hempty Hcol Hstale) as Hrej.
    split; [exact Hrej|].
    destruct (isOver g2) eqn:Hover.
    + unfold apiMove. by rewrite Hover.
    + apply apiMove_verdict_fail; eauto.
Qed.

(** ** Notation *)

Lemma append_nil_r (s : string) : s +:+ "" = s.
Proof.
  induction s as [|a s IH]; [reflexivity|].
  change (String a (s +:+ "") = String a s). congruence.
Qed.

Lemma append_assoc (s t u : string) : (s +:+ t) +:+ u = s +:+ (t +:+ u).
Proof.
  induction s as [|a s IH]; [reflexivity|].
  change (String a ((s +:+ t) +:+ u) = String a (s +:+ (t +:+ u))).
  congruence.
Qed.

Lemma append_suffix (s t : string) (flag : bool) :
  (if flag then s +:+ t else s) = s +:+ suffix flag t.
Proof. destruct flag; cbn [suffix]; by rewrite ?append_nil_r. Qed.

Lemma column_cases (c : Z) :
  0 <= c < SIZE ->
  c = 0 \/ c = 1 \/ c = 2 \/ c = 3 \/ c = 4 \/ c = 5 \/ c = 6 \/ c = 7
  \/ c = 8 \/ c = 9.
Proof. unfold SIZE. lia. Qed.

Lemma fileOf_fileLetter (c : Z) : 0 <= c < SIZE -> fileOf c = fileLetter c.
Proof.
  intros Hc. apply column_cases in Hc.
  repeat (destruct Hc as [->|Hc]; [reflexivity|]). by subst.
Qed.

Lemma toAlgebraic_squareName (s : square) :
  onBoard s -> toAlgebraic (sr s) (sc s) = squareName s.
Proof.
  intros [_ Hc]. unfold toAlgebraic, squareName.
  by rewrite fileOf_fileLetter.
Qed.

Lemma firstChar_toAlgebraic (s : square) :
  onBoard s -> firstChar (toAlgebraic (sr s) (sc s)) = fileLetter (sc s).
Proof.
  intros [_ Hc]. unfold toAlgebraic. rewrite fileOf_fileLetter by done.
  reflexivity.
Qed.

Lemma notationOf_describeAppended (k : kind) (cap over promo ep : bool)
    (from to : square) :
  onBoard from -> onBoard to ->
  notationOf (Some k) cap over promo ep from to
  = describeAppended k cap promo ep over from to.
Proof.
  intros Hf Ht. unfold notationOf, describeAppended, describeHead.
  rewrite !append_suffix, firstChar_toAlgebraic, !toAlgebraic_squareName
    by done.
  rewrite !append_assoc.
  destruct k; cbn [type_is kind_eqb pieceToNotation pieceLetter];
    rewrite ?append_assoc; reflexivity.
Qed.

(** The stated order and the order of the handler give the same string
    unless the move both promotes and ends the game. *)
Lemma describe_describeAppended (k : kind) (cap promo ep over : bool)
    (from to : square) :
  promo && over = false ->
  describe k cap promo ep over from to
  = describeAppended k cap promo ep over from to.
Proof.
  unfold describe, describeAppended.
  destruct promo, over; cbn [andb]; intros H; try discriminate H;
    reflexivity.
Qed.

(** C7. The notation is to carry ["=Q"] before ["#"], the order in which
    the handler detects promotion and king capture.  The handler appends
    ["#"] first: in the position reached by [pawnTakesKing], where the
    white pawn on row 1 takes the black King on row 0, the move is
    accepted, the pawn becomes a Queen, the game is over, and the entry
    pushed on the history is ["exf10#=Q"], where the stated order gives
    ["exf10=Q#"]. *)
Theorem promotion_mate_notation :
  exists g g',
    play initialGame pawnTakesKing = Some g
    /\ pieceAt (board g) (Sq 1 4) (Piece White Pawn)
    /\ pieceAt (board g) (Sq 0 5) (Piece Black King)
    /\ apiMove g (Some (Sq 1 4)) (Some (Sq 0 5)) = Done (g', Accepted)
    /\ pieceAt (board g') (Sq 0 5) (Piece White Queen)
    /\ isOver g' = true
    /\ moves g' = moves g ++ ["exf10#=Q"]
    /\ describe Pawn true true false true (Sq 1 4) (Sq 0 5) = "exf10=Q#"
    /\ moves g'
       <> moves g ++ [describe Pawn true true false true (Sq 1 4) (Sq 0 5)].
Proof.
  eexists. eexists.
  split; [vm_compute; reflexivity|].
  split; [vm_compute; reflexivity|].
  split; [vm_compute; reflexivity|].
  split; [vm_compute; reflexivity|].
  split; [vm_compute; reflexivity|].
  split; [vm_compute; reflexivity|].
  split; [vm_compute; reflexivity|].
  split; [vm_compute; reflexivity|].
  vm_compute. discriminate.
Qed.

(** What the handler pushes on the history, for every accepted move: the
    piece-letter / capture / destination part (pawn: the destination
    square alone, or origin file, ["x"] and destination on a capture;
    other pieces: letter, ["x"] on a capture, destination; files counted
    from ['a'], rank [size - row]), then the suffixes in the order of
    lines 327 to 329 of the handler. *)
Lemma handler_notation (g g' : game) (from to : square) :
  wf_board (board g) ->
  apiMove g (Some from) (Some to) = Done (g', Accepted) ->
  exists mp dest,
    pieceAt (board g) from mp
    /\ getCell (board g) (sr to) (sc to) = Done dest
    /\ moves g' =
       moves g ++
       [describeAppended (pkind mp)
          (negb (is_null dest))
          (reachesFarthestRank mp to)
          (isEnPassantCaptureOf (JStr mp) dest from to
             (enPassantTarget g) (enPassantPawn g))
          (isOver g')
          from to]
    /\ (isOver g' = true <-> exists k, dest = JStr k /\ pkind k = King).
Proof.
  intros Hwf Hm.
  destruct (apiMove_accepted g g' _ _ Hwf Hm)
    as (from' & to' & mp & dest & [= <-] & [= <-] & Hacc).
  exists mp, dest. split; [apply Hacc|]. split; [apply Hacc|].
  destruct (commitMove_fields _ _ _ _ _ _ _ _ _ _ _ (acc_commit _ _ _ _ _ _ Hacc))
    as (_ & _ & _ & Hover & _ & _ & Hmoves).
  split.
  2:{ rewrite Hover, (acc_live _ _ _ _ _ _ Hacc).
      unfold has_kind, type_is.
      destruct dest as [| |k]; cbn; [split; [done|by intros (? & ? & _)]..|].
      destruct (kind_eqb (pkind k) King) eqn:Hk.
      - apply kind_eqb_eq in Hk. split; [eauto|done].
      - split; [done|]. intros (k' & [= <-] & Hk').
        apply kind_eqb_eq in Hk'. congruence. }
  rewrite Hmoves.
  rewrite notationOf_describeAppended by apply Hacc.
  replace (reachesFarthestRank mp to) with (promotes mp to);
    [done|].
  unfold promotes, reachesFarthestRank. by destruct (pcolor mp).
Qed.

(** Whenever promotion and the end of the game do not fall on the same
    move, the entry pushed on the history is in the stated order: head,
    ["=Q"], ["#"], en-passant marker. *)
Lemma notation_in_stated_order (g g' : game) (from to : square) :
  wf_board (board g) ->
  apiMove g (Some from) (Some to) = Done (g', Accepted) ->
  exists mp dest,
    pieceAt (board g) from mp
    /\ getCell (board g) (sr to) (sc to) = Done dest
    /\ (reachesFarthestRank mp to && isOver g' = false ->
        moves g' =
        moves g ++
        [describe (pkind mp)
           (negb (is_null dest))
           (reachesFarthestRank mp to)
           (isEnPassantCaptureOf (JStr mp) dest from to
              (enPassantTarget g) (enPassantPawn g))
           (isOver g')
           from to]).
Proof.
  intros Hwf Hm.
  destruct (handler_notation g g' from to Hwf Hm)
    as (mp & dest & Hp & Hd & Hmoves & _).
  exists mp, dest. split; [exact Hp|]. split; [exact Hd|].
  intros Hno. rewrite Hmoves.
  by rewrite (describe_describeAppended _ _ _ _ _ _ _ Hno).
Qed.

(** ** Submissions that leave the board *)

(** The validator itself answers every off-board square with the
    out-of-bounds reason. *)
Lemma isValidMove_off_board (b : Board) (from to : square) (x : color)
    (ept epp : option square) :
  ~ onBoard from \/ ~ onBoard to ->
  isValidMove b from to x ept epp = Done (Fail OutOfBounds).
Proof.
  intros Hoff. unfold isValidMove, isValidMoveWith.
  destruct Hoff as [H|H]; apply inBounds_false in H; rewrite H;
    [done|by rewrite orb_true_r].
Qed.

Lemma getCell_row_off (b : list (list (option piece))) (r c : Z) :
  ~ (0 <= r < Z.of_nat (length b)) -> getCell b r c = TypeError.
Proof.
  intros Hr. unfold getCell. by rewrite index_out_of_range by lia.
Qed.

Lemma getCell_fuel (b : list (list (option piece))) (r c : Z) :
  getCell b r c <> OutOfFuel.
Proof. unfold getCell. by destruct (index b r). Qed.

(** The handler reads [game.board[from.r][from.c]] and
    [game.board[to.r][to.c]] before it calls the validator: a row outside
    the board throws there. *)
Lemma apiMove_row_off_board (g : game) (from to : square) :
  wf_board (board g) -> isOver g = false ->
  ~ (0 <= sr from < SIZE) \/ ~ (0 <= sr to < SIZE) ->
  apiMove g (Some from) (Some to) = TypeError.
Proof.
  intros [Hlen _] Hlive Hoff. unfold apiMove, SIZE in *. rewrite Hlive.
  destruct (getCell (board g) (sr from) (sc from)) as [v| |] eqn:Hv;
    [|reflexivity|by apply getCell_fuel in Hv].
  cbn [mbind exec_bind].
  destruct Hoff as [Hoff|Hoff].
  - rewrite getCell_row_off in Hv by lia. done.
  - rewrite getCell_row_off by lia. reflexivity.
Qed.

(** With both rows on the board, a column outside it is answered with the
    out-of-bounds reason. *)
Lemma apiMove_column_off_board (g : game) (from to : square) :
  wf_board (board g) -> isOver g = false ->
  0 <= sr from < SIZE -> 0 <= sr to < SIZE ->
  ~ (0 <= sc from < SIZE) \/ ~ (0 <= sc to < SIZE) ->
  apiMove g (Some from) (Some to) = Done (g, Rejected OutOfBounds).
Proof.
  intros [Hlen _] Hlive Hf Ht Hoff. unfold SIZE in *.
  apply apiMove_verdict_fail; [done| | |].
  - unfold getCell.
    destruct (index_in_range (board g) (sr from)) as [line ->]; [lia|eauto].
  - unfold getCell.
    destruct (index_in_range (board g) (sr to)) as [line ->]; [lia|eauto].
  - apply isValidMove_off_board. unfold onBoard, SIZE. lia.
Qed.

(** On a well-formed board the validator always answers. *)
Lemma isValidMove_total (b : Board) (from to : square) (x : color)
    (ept epp : option square) :
  wf_board b -> exists v, isValidMove b from to x ept epp = Done v.
Proof.
  intros Hwf. unfold isValidMove, isValidMoveWith.
  destruct (inBounds (sr from) (sc from)) eqn:Hf; cbn [negb orb]; [|eauto].
  destruct (inBounds (sr to) (sc to)) eqn:Ht; cbn [negb orb]; [|eauto].
  apply inBounds_onBoard in Hf, Ht.
  destruct ((sr from =? sr to) && (sc from =? sc to)) eqn:Hsame; [eauto|].
  assert (Hne : from <> to).
  { apply square_neq. apply andb_false_iff in Hsame.
    rewrite !Z.eqb_neq in Hsame. done. }
  destruct (getCell_onBoard b from Hwf Hf) as [[p|] ->];
    cbn [mbind exec_bind jsOf]; [|eauto].
  destruct (negb (color_eqb (pcolor p) x)); [eauto|].
  destruct (getCell_onBoard b to Hwf Ht) as [target ->].
  cbn [mbind exec_bind].
  destruct (truthy (jsOf target) && has_color (jsOf target) x); [eauto|].
  assert (Hline : aligned from to ->
                  exists ok, pathClear b from to = Done ok).
  { intros Hal.
    destruct (pathClear_straight b from to Hwf Hf Ht Hne Hal) as (ok & -> & _).
    eauto. }
  destruct (pkind p); eauto.
  - destruct (isValidPawnMove_spec b from to (pcolor p) ept epp Hwf Hf Ht)
      as (ok & -> & _). cbn. eauto.
  - destruct (_ || _) eqn:Hshape; [|cbn; eauto].
    destruct Hline as [ok ->]; [unfold aligned; lia|]. cbn. eauto.
  - destruct (Z.eqb_spec (Z.abs (sr to - sr from)) (Z.abs (sc to - sc from)));
      [|cbn; eauto].
    destruct Hline as [ok ->]; [unfold aligned; lia|]. cbn. eauto.
  - destruct (_ || _) eqn:Hshape; [|cbn; eauto].
    destruct Hline as [ok ->]; [unfold aligned; lia|]. cbn. eauto.
Qed.

(** The handler throws only on a row outside the board: with both rows on
    the board it always answers. *)
Lemma apiMove_rows_on_board (g : game) (from to : square) :
  wf_board (board g) ->
  0 <= sr from < SIZE -> 0 <= sr to < SIZE ->
  exists g' resp, apiMove g (Some from) (Some to) = Done (g', resp).
Proof.
  intros Hwf Hf Ht. unfold apiMove.
  destruct (isOver g); [eauto|].
  assert (Hrow : forall r c, 0 <= r < SIZE ->
                 exists v, getCell (board g) r c = Done v).
  { intros r c Hr. unfold getCell, SIZE in *.
    destruct (index_in_range (board g) r) as [line ->]; [|eauto].
    destruct Hwf as [-> _]. lia. }
  destruct (Hrow _ (sc from) Hf) as [piece Hp].
  destruct (Hrow _ (sc to) Ht) as [dest Hd].
  rewrite Hp, Hd. cbn [mbind exec_bind].
  destruct (isValidMove_total (board g) from to (turn g)
              (enPassantTarget g) (enPassantPawn g) Hwf) as [[|why] Hv];
    rewrite Hv; cbn [mbind exec_bind]; [|eauto].
  apply isValidMove_Ok in Hv
    as (Hfb & Htb & _ & mp & dest' & Hp' & _).
  rewrite Hp in Hp'. injection Hp' as ->.
  destruct (commitMove_board g from to mp (typeOf (JStr mp)) dest
              (negb (is_null dest))
              (isEnPassantCaptureOf (JStr mp) dest from to
                 (enPassantTarget g) (enPassantPawn g))
              (enPassantPawn g) Hwf Hfb Htb) as (g' & -> & _); [|eauto].
  intros Hepc. apply isEnPassantCaptureOf_true in Hepc
    as (v & _ & _ & _ & _ & _ & Hv & Hvr & Hvc).
  exists v. split; [done|]. destruct Hfb, Htb. unfold onBoard. lia.
Qed.

(** C3. A submission whose origin row is off the board is not answered
    with the out-of-bounds reason: the handler throws while reading the
    board, before the validator (which would have rejected it) runs. *)
Theorem off_board_row_throws :
  apiMove initialGame (Some (Sq (-1) 0)) (Some (Sq 0 0)) = TypeError
  /\ isValidMove (board initialGame) (Sq (-1) 0) (Sq 0 0) (turn initialGame)
       (enPassantTarget initialGame) (enPassantPawn initialGame)
     = Done (Fail OutOfBounds).
Proof. split; vm_compute; reflexivity. Qed.

(** ** Positions played from the initial one *)

Lemma noPawnAtHome_initialBoard : noPawnAtHome initialBoard.
Proof.
  intros c [x k] Hp.
  pose proof (pieceAt_onBoard _ _ _ wf_initialBoard Hp) as [_ Hc].
  apply column_cases in Hc. cbn [sc] in Hc.
  destruct x; cbn [homeRow pcolor] in Hp;
    repeat (destruct Hc as [->|Hc];
            [vm_compute in Hp; injection Hp as <-; done|]);
    subst; vm_compute in Hp; injection Hp as <-; done.
Qed.

(** Every position played from the initial one is well formed and has no
    pawn on its own back rank. *)
Lemma reachable_sound (ms : list (square * square)) (g : game) :
  play initialGame ms = Some g ->
  wf_board (board g) /\ noPawnAtHome (board g).
Proof.
  apply play_sound; [apply wf_initialBoard|apply noPawnAtHome_initialBoard].
Qed.

Lemma wf_sample (b : list (list (option piece))) :
  length b = 10%nat ->
  forallb (fun line => Nat.eqb (length line) 10) b = true ->
  wf_board b.
Proof.
  intros Hlen Hall. split; [done|].
  apply Forall_forall. intros line Hin.
  rewrite forallb_forall in Hall. apply Nat.eqb_eq, Hall.
  by apply list_elem_of_In.
Qed.

Lemma onBoard_sample (s : square) : inBounds (sr s) (sc s) = true -> onBoard s.
Proof. apply inBounds_onBoard. Qed.

(** ** The claims at sample positions *)

Lemma pawn_validator_exact_witness :
  wf_board initialBoard /\ onBoard (Sq 8 4) /\ onBoard (Sq 6 4)
  /\ ((exists ok,
         isValidPawnMove initialBoard (Sq 8 4) (Sq 6 4) White None None
         = Done ok
         /\ (ok = true
             <-> pawnRule initialBoard (Sq 8 4) (Sq 6 4) White None None))
      /\ (Sq 8 4 <> Sq 6 4 ->
          pieceAt initialBoard (Sq 8 4) (Piece White Pawn) ->
          ~ (exists q, pieceAt initialBoard (Sq 6 4) q /\ pcolor q = White) ->
          (pawnRule initialBoard (Sq 8 4) (Sq 6 4) White None None ->
           isValidMove initialBoard (Sq 8 4) (Sq 6 4) White None None
           = Done Ok)
          /\ (~ pawnRule initialBoard (Sq 8 4) (Sq 6 4) White None None ->
              isValidMove initialBoard (Sq 8 4) (Sq 6 4) White None None
              = Done (Fail IllegalPawn)))).
Proof.
  assert (Hwf : wf_board initialBoard) by (apply wf_sample; reflexivity).
  assert (Hf : onBoard (Sq 8 4)) by (apply onBoard_sample; reflexivity).
  assert (Ht : onBoard (Sq 6 4)) by (apply onBoard_sample; reflexivity).
  split; [exact Hwf|]. split; [exact Hf|]. split; [exact Ht|].
  exact (pawn_validator_exact initialBoard (Sq 8 4) (Sq 6 4) White None None
           Hwf Hf Ht).
Defined.

Lemma enPassant_window_one_move_witness :
  wf_board (board initialGame)
  /\ apiMove initialGame (Some (Sq 8 4)) (Some (Sq 6 4))
     = Done (afterE4, Accepted)
  /\ noPawnAtHome (board initialGame)
  /\ exists mp,
       pieceAt (board initialGame) (Sq 8 4) mp
       /\ (doubleStep mp (Sq 8 4) (Sq 6 4) ->
           enPassantTarget afterE4
             = Some (Sq (sr (Sq 8 4) + forward (pcolor mp)) (sc (Sq 8 4)))
           /\ enPassantPawn afterE4 = Some (Sq 6 4))
       /\ (~ doubleStep mp (Sq 8 4) (Sq 6 4) ->
           enPassantTarget afterE4 = None /\ enPassantPawn afterE4 = None)
       /\ (noPawnAtHome (board initialGame) ->
           forall T ms g2 a,
             enPassantTarget afterE4 = Some T ->
             ms <> [] -> play afterE4 ms = Some g2 ->
             pieceAt (board g2) a (Piece (turn g2) Pawn) ->
             emptyAt (board g2) T -> sc a <> sc T ->
             isValidMove (board g2) a T (turn g2)
               (enPassantTarget g2) (enPassantPawn g2)
             = Done (Fail IllegalPawn)
             /\ apiMove g2 (Some a) (Some T)
                = Done (g2, Rejected (if isOver g2 then GameOver
                                      else IllegalPawn))).
Proof.
  assert (Hwf : wf_board (board initialGame))
    by (apply wf_sample; reflexivity).
  assert (Hm : apiMove initialGame (Some (Sq 8 4)) (Some (Sq 6 4))
               = Done (afterE4, Accepted)) by (vm_compute; reflexivity).
  split; [exact Hwf|]. split; [exact Hm|].
  split; [exact noPawnAtHome_initialBoard|].
  exact (enPassant_window_one_move initialGame afterE4 (Sq 8 4) (Sq 6 4)
           Hwf Hm).
Defined.

Lemma king_capture_ends_game_witness :
  wf_board (board beforeMate)
  /\ apiMove beforeMate (Some (Sq 1 4)) (Some (Sq 0 5))
     = Done (afterMate, Accepted)
  /\ capturesKing beforeMate (Sq 1 4) (Sq 0 5)
  /\ isOver afterMate = true
  /\ forall f t, apiMove afterMate f t = Done (afterMate, Rejected GameOver).
Proof.
  assert (Hwf : wf_board (board beforeMate))
    by (apply wf_sample; reflexivity).
  assert (Hm : apiMove beforeMate (Some (Sq 1 4)) (Some (Sq 0 5))
               = Done (afterMate, Accepted)) by (vm_compute; reflexivity).
  assert (Hk : capturesKing beforeMate (Sq 1 4) (Sq 0 5)).
  { left. exists (Piece Black King). split; [vm_compute|]; reflexivity. }
  assert (Hover : isOver afterMate = true).
  { exact (proj1 (king_capture_ends_game beforeMate) Hwf
             (Sq 1 4) (Sq 0 5) afterMate Hm Hk). }
  split; [exact Hwf|]. split; [exact Hm|]. split; [exact Hk|].
  split; [exact Hover|].
  exact (proj1 (proj2 (king_capture_ends_game afterMate) Hover)).
Defined.

Lemma rejection_changes_nothing_witness :
  apiMove initialGame (Some (Sq 8 4)) (Some (Sq 5 4))
  = Done (initialGame, Rejected IllegalPawn)
  /\ (board initialGame = board initialGame
      /\ turn initialGame = turn initialGame
      /\ moveNumber initialGame = moveNumber initialGame
      /\ enPassantTarget initialGame = enPassantTarget initialGame
      /\ enPassantPawn initialGame = enPassantPawn initialGame
      /\ isOver initialGame = isOver initialGame
      /\ moves initialGame = moves initialGame).
Proof.
  assert (Hm : apiMove initialGame (Some (Sq 8 4)) (Some (Sq 5 4))
               = Done (initialGame, Rejected IllegalPawn))
    by (vm_compute; reflexivity).
  split; [exact Hm|].
  exact (rejection_changes_nothing initialGame initialGame
           (Some (Sq 8 4)) (Some (Sq 5 4)) IllegalPawn Hm).
Defined.

Lemma promotion_to_queen_witness :
  wf_board (board beforeMate)
  /\ apiMove beforeMate (Some (Sq 1 4)) (Some (Sq 0 5))
     = Done (afterMate, Accepted)
  /\ exists mp,
       pieceAt (board beforeMate) (Sq 1 4) mp
       /\ (pkind mp = Pawn -> sr (Sq 0 5) = farthestRank (pcolor mp) ->
           pieceAt (board afterMate) (Sq 0 5) (Piece (pcolor mp) Queen))
       /\ (pkind mp = Pawn -> sr (Sq 0 5) <> farthestRank (pcolor mp) ->
           pieceAt (board afterMate) (Sq 0 5) mp)
       /\ (pkind mp <> Pawn -> pieceAt (board afterMate) (Sq 0 5) mp).
Proof.
  assert (Hwf : wf_board (board beforeMate))
    by (apply wf_sample; reflexivity).
  assert (Hm : apiMove beforeMate (Some (Sq 1 4)) (Some (Sq 0 5))
               = Done (afterMate, Accepted)) by (vm_compute; reflexivity).
  split; [exact Hwf|]. split; [exact Hm|].
  exact (promotion_to_queen beforeMate afterMate (Sq 1 4) (Sq 0 5) Hwf Hm).
Defined.

Lemma turn_flips_and_moves_count_witness :
  apiMove initialGame (Some (Sq 8 4)) (Some (Sq 6 4))
  = Done (afterE4, Accepted)
  /\ (turn afterE4 = other (turn initialGame)
      /\ moveNumber afterE4 =
           match turn afterE4 with
           | White => moveNumber initialGame + 1
           | Black => moveNumber initialGame
           end
      /\ (turn initialGame = White -> moveNumber initialGame = 1 ->
          moveNumber afterE4 = 1
          /\ forall f2 t2 g'',
               apiMove afterE4 f2 t2 = Done (g'', Accepted) ->
               moveNumber g'' = 2)).
Proof.
  assert (Hm : apiMove initialGame (Some (Sq 8 4)) (Some (Sq 6 4))
               = Done (afterE4, Accepted)) by (vm_compute; reflexivity).
  split; [exact Hm|].
  exact (turn_flips_and_moves_count initialGame afterE4
           (Some (Sq 8 4)) (Some (Sq 6 4)) Hm).
Defined.

Lemma pathClear_calls_straight_witness :
  wf_board initialBoard
  /\ ((forall clearPath : list (list (option piece)) -> square -> square
                          -> exec bool,
         (forall from to, onBoard from -> onBoard to -> from <> to ->
            aligned from to ->
            clearPath initialBoard from to = pathClear initialBoard from to) ->
         forall from to turnColor ept epp,
           isValidMoveWith clearPath initialBoard from to turnColor ept epp
           = isValidMove initialBoard from to turnColor ept epp)
      /\ (forall from to, onBoard from -> onBoard to -> from <> to ->
            aligned from to ->
            exists ok,
              pathClear initialBoard from to = Done ok
              /\ (ok = true
                  <-> forall s, between from to s -> emptyAt initialBoard s)
              /\ (forall s, In s (pathReads initialBoard from to) ->
                    between from to s /\ onBoard s))).
Proof.
  assert (Hwf : wf_board initialBoard) by (apply wf_sample; reflexivity).
  split; [exact Hwf|].
  exact (pathClear_calls_straight initialBoard Hwf).
Defined.

Lemma enPassant_flag_matches_validator_witness :
  wf_board (board beforeEnPassant)
  /\ apiMove beforeEnPassant (Some (Sq 3 4)) (Some (Sq 2 3))
     = Done (afterEnPassant, Accepted)
  /\ exists mp dest,
       pieceAt (board beforeEnPassant) (Sq 3 4) mp
       /\ getCell (board beforeEnPassant) (sr (Sq 2 3)) (sc (Sq 2 3))
          = Done dest
       /\ let flag := isEnPassantCaptureOf (JStr mp) dest (Sq 3 4) (Sq 2 3)
                        (enPassantTarget beforeEnPassant)
                        (enPassantPawn beforeEnPassant) in
          (flag = true <->
             pkind mp = Pawn
             /\ Z.abs (sc (Sq 2 3) - sc (Sq 3 4)) = 1
             /\ sr (Sq 2 3) - sr (Sq 3 4) = dirOf (pcolor mp)
             /\ enPassantClause (board beforeEnPassant) (Sq 3 4) (Sq 2 3)
                  (pcolor mp) dest
                  (enPassantTarget beforeEnPassant)
                  (enPassantPawn beforeEnPassant) = Done true)
          /\ (flag = true ->
              exists v p,
                enPassantPawn beforeEnPassant = Some v
                /\ v <> Sq 3 4 /\ v <> Sq 2 3
                /\ pieceAt (board beforeEnPassant) v p
                /\ pkind p = Pawn /\ pcolor p = other (pcolor mp)
                /\ emptyAt (board afterEnPassant) v)
          /\ (flag = false ->
              forall s, s <> Sq 3 4 -> s <> Sq 2 3 ->
                getCell (board afterEnPassant) (sr s) (sc s)
                = getCell (board beforeEnPassant) (sr s) (sc s)).
Proof.
  assert (Hwf : wf_board (board beforeEnPassant))
    by (apply wf_sample; reflexivity).
  assert (Hm : apiMove beforeEnPassant (Some (Sq 3 4)) (Some (Sq 2 3))
               = Done (afterEnPassant, Accepted)) by (vm_compute; reflexivity).
  split; [exact Hwf|]. split; [exact Hm|].
  exact (enPassant_flag_matches_validator beforeEnPassant afterEnPassant
           (Sq 3 4) (Sq 2 3) Hwf Hm).
Defined.

(** ** Scenarios of the specification *)

Ltac by_evaluation :=
  repeat match goal with |- _ /\ _ => split end;
  vm_compute; reflexivity.

(** From the initial position the two-step advance (8,4) to (6,4) is
    accepted, opens the window target (7,4) / victim (6,4), and hands the
    turn to Black. *)
Example scenario_double_step :
  apiMove initialGame (Some (Sq 8 4)) (Some (Sq 6 4))
  = Done (afterE4, Accepted)
  /\ enPassantTarget afterE4 = Some (Sq 7 4)
  /\ enPassantPawn afterE4 = Some (Sq 6 4)
  /\ turn afterE4 = Black.
Proof. by_evaluation. Qed.

(** The bishop on (9,2) cannot go to (6,5) past the pawn on (8,3). *)
Example scenario_bishop_blocked :
  apiMove initialGame (Some (Sq 9 2)) (Some (Sq 6 5))
  = Done (initialGame, Rejected IllegalBishop).
Proof. vm_compute. reflexivity. Qed.

(** The en-passant capture is open right after the double step: the
    capturing pawn lands on the skipped square and the victim is gone. *)
Example scenario_en_passant :
  enPassantTarget beforeEnPassant = Some (Sq 2 3)
  /\ enPassantPawn beforeEnPassant = Some (Sq 3 3)
  /\ apiMove beforeEnPassant (Some (Sq 3 4)) (Some (Sq 2 3))
     = Done (afterEnPassant, Accepted)
  /\ pieceAt (board afterEnPassant) (Sq 2 3) (Piece White Pawn)
  /\ emptyAt (board afterEnPassant) (Sq 3 3)
  /\ last (moves afterEnPassant) = Some "d8 e.p.".
Proof. by_evaluation. Qed.

(** One move later the same capture is an illegal pawn move. *)
Example scenario_en_passant_too_late :
  exists g,
    play beforeEnPassant [(Sq 9 1, Sq 7 0); (Sq 2 0, Sq 0 1)] = Some g
    /\ pieceAt (board g) (Sq 3 4) (Piece White Pawn)
    /\ pieceAt (board g) (Sq 3 3) (Piece Black Pawn)
    /\ apiMove g (Some (Sq 3 4)) (Some (Sq 2 3))
       = Done (g, Rejected IllegalPawn).
Proof. eexists. by_evaluation. Qed.

(** * Further properties of the code *)

(** ** The piece rules of [isValidMove] *)

(** Past the five common checks [isValidMove] is its [switch]. *)
Lemma isValidMove_switch (b : Board) (from to : square) (x : color)
    (ept epp : option square) (p : piece) :
  wf_board b -> onBoard from -> onBoard to -> from <> to ->
  pieceAt b from p -> pcolor p = x ->
  ~ (exists q, pieceAt b to q /\ pcolor q = x) ->
  isValidMove b from to x ept epp =
  let dr := sr to - sr from in
  let dc := sc to - sc from in
  let adr := Z.abs dr in
  let adc := Z.abs dc in
  match pkind p with
  | Pawn =>
      ok ← isValidPawnMove b from to x ept epp;
      Done (judge ok IllegalPawn)
  | Knight =>
      Done (judge (((adr =? 2) && (adc =? 1)) || ((adr =? 1) && (adc =? 2)))
              IllegalKnight)
  | Bishop =>
      ok ← (if adr =? adc then pathClear b from to else Done false);
      Done (judge ok IllegalBishop)
  | Rook =>
      ok ← (if (dr =? 0) || (dc =? 0) then pathClear b from to
            else Done false);
      Done (judge ok IllegalRook)
  | Queen =>
      ok ← (if (adr =? adc) || ((dr =? 0) || (dc =? 0))
            then pathClear b from to else Done false);
      Done (judge ok IllegalQueen)
  | King => Done (judge ((adr <=? 1) && (adc <=? 1)) IllegalKing)
  | Noble => Done (judge ((adr <=? 1) && (adc <=? 1)) IllegalNoble)
  end.
Proof.
  intros Hwf Hf Ht Hne Hp Hx Hown.
  unfold isValidMove, isValidMoveWith.
  apply inBounds_onBoard in Hf, Ht. rewrite Hf, Ht. cbn [negb orb].
  apply square_neq in Hne.
  replace ((sr from =? sr to) && (sc from =? sc to)) with false
    by (symmetry; apply andb_false_iff; rewrite !Z.eqb_neq; done).
  unfold pieceAt in Hp. rewrite Hp. cbn [mbind exec_bind]. cbv zeta.
  rewrite Hx, color_eqb_refl. cbn [negb].
  apply inBounds_onBoard in Ht.
  destruct (getCell_onBoard b to Hwf Ht) as [[q|] Hq]; rewrite Hq;
    cbn [mbind exec_bind jsOf truthy andb].
  - unfold has_color. cbn [colorOf].
    destruct (color_eqb (pcolor q) x) eqn:Hqx.
    + exfalso. apply Hown. exists q. by apply color_eqb_eq in Hqx.
    + reflexivity.
  - reflexivity.
Qed.

(** A line piece between two distinct squares of the board: the answer of
    [pathClear] on an aligned pair. *)
Lemma pathClear_pathEmpty (b : Board) (from to : square) :
  wf_board b -> onBoard from -> onBoard to -> from <> to ->
  aligned from to ->
  exists ok, pathClear b from to = Done ok
             /\ (ok = true <-> pathEmpty b from to).
Proof.
  intros Hwf Hf Ht Hne Hal.
  destruct (pathClear_straight b from to Hwf Hf Ht Hne Hal)
    as (ok & Hok & Hiff & _).
  by exists ok.
Qed.

(** X1. A knight of the side to move whose destination is not one of its
    own pieces is accepted exactly on the L shape, whatever stands
    between; every other knight move is an illegal knight move. *)
Theorem knight_rule (b : Board) (from to : square) (x : color)
    (ept epp : option square) :
  wf_board b -> onBoard from -> onBoard to -> from <> to ->
  pieceAt b from (Piece x Knight) ->
  ~ (exists q, pieceAt b to q /\ pcolor q = x) ->
  (knightShape from to -> isValidMove b from to x ept epp = Done Ok)
  /\ (~ knightShape from to ->
      isValidMove b from to x ept epp = Done (Fail IllegalKnight)).
Proof.
  intros Hwf Hf Ht Hne Hp Hown.
  rewrite (isValidMove_switch b from to x ept epp (Piece x Knight)) by done.
  cbn [pkind]. cbv zeta. unfold knightShape.
  destruct (Z.eqb_spec (Z.abs (sr to - sr from)) 2);
    destruct (Z.eqb_spec (Z.abs (sc to - sc from)) 1);
    destruct (Z.eqb_spec (Z.abs (sr to - sr from)) 1);
    destruct (Z.eqb_spec (Z.abs (sc to - sc from)) 2);
    cbn [andb orb judge]; split; intros H; try done; try lia;
    exfalso; apply H; lia.
Qed.

(** X2. A bishop of the side to move whose destination is not one of its
    own pieces is accepted exactly when the two squares are on a diagonal
    and every square strictly between them is empty. *)
Theorem bishop_rule (b : Board) (from to : square) (x : color)
    (ept epp : option square) :
  wf_board b -> onBoard from -> onBoard to -> from <> to ->
  pieceAt b from (Piece x Bishop) ->
  ~ (exists q, pieceAt b to q /\ pcolor q = x) ->
  (onDiagonal from to /\ pathEmpty b from to ->
   isValidMove b from to x ept epp = Done Ok)
  /\ (~ (onDiagonal from to /\ pathEmpty b from to) ->
      isValidMove b from to x ept epp = Done (Fail IllegalBishop)).
Proof.
  intros Hwf Hf Ht Hne Hp Hown.
  rewrite (isValidMove_switch b from to x ept epp (Piece x Bishop)) by done.
  cbn [pkind]. cbv zeta. unfold onDiagonal.
  destruct (Z.eqb_spec (Z.abs (sr to - sr from)) (Z.abs (sc to - sc from)))
    as [Hd|Hd].
  - destruct (pathClear_pathEmpty b from to Hwf Hf Ht Hne)
      as (ok & -> & Hiff); [unfold aligned; lia|].
    cbn [mbind exec_bind]. split.
    + intros [_ He]. apply Hiff in He. by rewrite He.
    + intros Hn. destruct ok; [|done]. exfalso. apply Hn.
      split; [done|]. by apply Hiff.
  - cbn [mbind exec_bind judge]. split; [by intros [? _]|done].
Qed.

(** X3. A rook of the side to move whose destination is not one of its
    own pieces is accepted exactly when the two squares share a row or a
    column and every square strictly between them is empty. *)
Theorem rook_rule (b : Board) (from to : square) (x : color)
    (ept epp : option square) :
  wf_board b -> onBoard from -> onBoard to -> from <> to ->
  pieceAt b from (Piece x Rook) ->
  ~ (exists q, pieceAt b to q /\ pcolor q = x) ->
  (onRankOrFile from to /\ pathEmpty b from to ->
   isValidMove b from to x ept epp = Done Ok)
  /\ (~ (onRankOrFile from to /\ pathEmpty b from to) ->
      isValidMove b from to x ept epp = Done (Fail IllegalRook)).
Proof.
  intros Hwf Hf Ht Hne Hp Hown.
  rewrite (isValidMove_switch b from to x ept epp (Piece x Rook)) by done.
  cbn [pkind]. cbv zeta. unfold onRankOrFile.
  destruct ((sr to - sr from =? 0) || (sc to - sc from =? 0)) eqn:Hs.
  - apply orb_true_iff in Hs. rewrite !Z.eqb_eq in Hs.
    destruct (pathClear_pathEmpty b from to Hwf Hf Ht Hne)
      as (ok & -> & Hiff); [unfold aligned; lia|].
    cbn [mbind exec_bind]. split.
    + intros [_ He]. apply Hiff in He. by rewrite He.
    + intros Hn. destruct ok; [|done]. exfalso. apply Hn.
      split; [lia|]. by apply Hiff.
  - apply orb_false_iff in Hs. rewrite !Z.eqb_neq in Hs.
    cbn [mbind exec_bind judge]. split; [intros [? _]; lia|done].
Qed.

(** X4. A queen of the side to move whose destination is not one of its
    own pieces is accepted exactly when a rook or a bishop would be: the
    squares share a row, a column or a diagonal and every square strictly
    between them is empty. *)
Theorem queen_rule (b : Board) (from to : square) (x : color)
    (ept epp : option square) :
  wf_board b -> onBoard from -> onBoard to -> from <> to ->
  pieceAt b from (Piece x Queen) ->
  ~ (exists q, pieceAt b to q /\ pcolor q = x) ->
  ((onRankOrFile from to \/ onDiagonal from to) /\ pathEmpty b from to ->
   isValidMove b from to x ept epp = Done Ok)
  /\ (~ ((onRankOrFile from to \/ onDiagonal from to)
         /\ pathEmpty b from to) ->
      isValidMove b from to x ept epp = Done (Fail IllegalQueen)).
Proof.
  intros Hwf Hf Ht Hne Hp Hown.
  rewrite (isValidMove_switch b from to x ept epp (Piece x Queen)) by done.
  cbn [pkind]. cbv zeta. unfold onRankOrFile, onDiagonal.
  destruct ((Z.abs (sr to - sr from) =? Z.abs (sc to - sc from))
            || ((sr to - sr from =? 0) || (sc to - sc from =? 0))) eqn:Hs.
  - rewrite !orb_true_iff, !Z.eqb_eq in Hs.
    destruct (pathClear_pathEmpty b from to Hwf Hf Ht Hne)
      as (ok & -> & Hiff); [unfold aligned; lia|].
    cbn [mbind exec_bind]. split.
    + intros [_ He]. apply Hiff in He. by rewrite He.
    + intros Hn. destruct ok; [|done]. exfalso. apply Hn.
      split; [lia|]. by apply Hiff.
  - rewrite !orb_false_iff, !Z.eqb_neq in Hs.
    cbn [mbind exec_bind judge]. split; [intros [? _]; lia|done].
Qed.


(** ** The common checks of [isValidMove] *)

(** X6. The reasons of [isValidMove] come in a fixed order: a square off
    the board is reported before anything else, then a move to the same
    square, then an empty origin, then a piece of the other side, then a
    destination holding a piece of the mover's own colour; only then is
    the piece rule consulted. *)
Theorem rejection_order (b : Board) (from to : square) (x : color)
    (ept epp : option square) :
  wf_board b ->
  (~ onBoard from \/ ~ onBoard to ->
   isValidMove b from to x ept epp = Done (Fail OutOfBounds))
  /\ (onBoard from -> onBoard to ->
      (from = to -> isValidMove b from to x ept epp = Done (Fail SameSquare))
      /\ (from <> to ->
          (emptyAt b from ->
           isValidMove b from to x ept epp = Done (Fail NoPiece))
          /\ (forall p, pieceAt b from p ->
              (pcolor p <> x ->
               isValidMove b from to x ept epp = Done (Fail NotYourPiece))
              /\ (pcolor p = x ->
                  forall q, pieceAt b to q -> pcolor q = x ->
                  isValidMove b from to x ept epp = Done (Fail OwnPiece))))).
Proof.
  intros Hwf. split; [apply isValidMove_off_board|].
  intros Hf Ht. unfold isValidMove, isValidMoveWith.
  apply inBounds_onBoard in Hf, Ht. rewrite Hf, Ht. cbn [negb orb].
  split.
  - intros ->. by rewrite !Z.eqb_refl.
  - intros Hne. apply square_neq in Hne.
    replace ((sr from =? sr to) && (sc from =? sc to)) with false
      by (symmetry; apply andb_false_iff; rewrite !Z.eqb_neq; done).
    split.
    + intros He. unfold emptyAt in He. by rewrite He.
    + intros p Hp. unfold pieceAt in Hp. rewrite Hp.
      cbn [mbind exec_bind]. cbv zeta. split.
      * intros Hc. apply color_eqb_neq in Hc. by rewrite Hc.
      * intros Hc q Hq Hqc. rewrite Hc, color_eqb_refl. cbn [negb].
        unfold pieceAt in Hq. rewrite Hq. cbn [mbind exec_bind truthy andb].
        unfold has_color. cbn [colorOf]. by rewrite Hqc, color_eqb_refl.
Qed.

(** X7. On a 10x10 board [isValidMove] never throws on squares with
    integer coordinates, on or off the board; [isValidPawnMove] on its
    own relies on that bounds check: it answers on squares of the board
    and throws when the destination row is an integer off the board.
    (A coordinate that is not an integer, such as 8.5, is outside the
    embedding: it passes [inBounds] and the read of its row throws.) *)
Theorem validator_safety (b : Board) (from to : square) (x : color)
    (ept epp : option square) :
  wf_board b ->
  (exists v, isValidMove b from to x ept epp = Done v)
  /\ (onBoard from -> onBoard to ->
      exists ok, isValidPawnMove b from to x ept epp = Done ok)
  /\ (~ (0 <= sr to < SIZE) ->
      isValidPawnMove b from to x ept epp = TypeError).
Proof.
  intros Hwf. split; [by apply isValidMove_total|]. split.
  - intros Hf Ht.
    destruct (isValidPawnMove_spec b from to x ept epp Hwf Hf Ht)
      as (ok & Hok & _). eauto.
  - intros Hoff. unfold isValidPawnMove.
    rewrite (getCell_row_off b (sr to) (sc to)); [reflexivity|].
    destruct Hwf as [-> _]. unfold SIZE in Hoff. lia.
Qed.

(** ** [pathClear] beyond the calls of [isValidMove] *)

Lemma between_sym (from to s : square) :
  aligned from to -> between from to s -> between to from s.
Proof.
  intros Hal (i & Hi & ->). exists (span from to - i).
  assert (Hspan : span to from = span from to) by (unfold span; lia).
  rewrite Hspan. split; [lia|].
  unfold span, aligned in *.
  destruct (Z.sgn_spec (sr to - sr from)) as [[? Hr]|[[? Hr]|[? Hr]]];
    destruct (Z.sgn_spec (sc to - sc from)) as [[? Hc]|[[? Hc]|[? Hc]]];
    destruct (Z.sgn_spec (sr from - sr to)) as [[? Hr']|[[? Hr']|[? Hr']]];
    destruct (Z.sgn_spec (sc from - sc to)) as [[? Hc']|[[? Hc']|[? Hc']]];
    try lia; rewrite Hr, Hc, Hr', Hc'; f_equal; lia.
Qed.

Lemma aligned_sym (from to : square) : aligned from to -> aligned to from.
Proof. unfold aligned. lia. Qed.

(** X8. On an aligned pair of distinct squares of the board [pathClear]
    gives the same answer in both directions. *)
Theorem pathClear_symmetric (b : Board) (from to : square) :
  wf_board b -> onBoard from -> onBoard to -> from <> to ->
  aligned from to ->
  pathClear b from to = pathClear b to from.
Proof.
  intros Hwf Hf Ht Hne Hal.
  destruct (pathClear_pathEmpty b from to Hwf Hf Ht Hne Hal)
    as (ok & -> & Hiff).
  destruct (pathClear_pathEmpty b to from Hwf Ht Hf (not_eq_sym Hne)
              (aligned_sym _ _ Hal)) as (ok' & -> & Hiff').
  f_equal. apply eq_true_iff_eq. rewrite Hiff, Hiff'. unfold pathEmpty.
  split; intros He s Hs; apply He;
    [apply between_sym in Hs | apply between_sym in Hs];
    auto using aligned_sym.
Qed.

Lemma pathWalk_never_true (b : Board) (dr dc : Z) (to : square) :
  forall (fuel : nat) (r c : Z),
    (forall k, 0 <= k -> ~ (sr to = r + k * dr /\ sc to = c + k * dc)) ->
    snd (pathWalk fuel b dr dc to r c) <> Done true.
Proof.
  intros fuel. induction fuel as [|fuel IH]; intros r c Hoff; [done|].
  cbn [pathWalk].
  destruct (Z.eqb_spec r (sr to)) as [Hr|Hr];
    destruct (Z.eqb_spec c (sc to)) as [Hc|Hc]; cbn [negb orb];
    try (exfalso; apply (Hoff 0); lia).
  all: destruct (getCell b r c) as [v| |]; [|done..];
    destruct (negb (is_null v)); [done|]; cbn [snd];
    apply IH; intros k Hk [? ?]; apply (Hoff (k + 1)); lia.
Qed.

(** X9. Off a straight line [pathClear] never answers [true]: between two
    squares that share no row, column or diagonal it answers [false] or
    throws on leaving the board. *)
Theorem pathClear_off_line (b : Board) (from to : square) :
  ~ aligned from to ->
  pathClear b from to = Done false \/ pathClear b from to = TypeError.
Proof.
  intros Hoff.
  assert (Hnt : pathClear b from to <> Done true).
  { unfold pathClear, pathRun. apply pathWalk_never_true.
    intros k Hk [Hr Hc]. apply Hoff. unfold aligned.
    destruct (Z.sgn_spec (sr to - sr from)) as [[? Hr']|[[? Hr']|[? Hr']]];
      destruct (Z.sgn_spec (sc to - sc from)) as [[? Hc']|[[? Hc']|[? Hc']]];
      rewrite Hr' in Hr; rewrite Hc' in Hc; lia. }
  pose proof (pathClear_total b from to) as Hfuel.
  destruct (pathClear b from to) as [[|]| |]; auto; done.
Qed.

(** ** When the handler throws *)

(** X10. On a 10x10 board a move submission with integer coordinates
    throws exactly when the game is not over and the row of its origin or
    of its destination is off the board; in every other case with
    integer coordinates it is answered. *)
Theorem apiMove_throws_iff (g : game) (from to : square) :
  wf_board (board g) ->
  (apiMove g (Some from) (Some to) = TypeError
   <-> isOver g = false
       /\ (~ (0 <= sr from < SIZE) \/ ~ (0 <= sr to < SIZE)))
  /\ apiMove g (Some from) (Some to) <> OutOfFuel.
Proof.
  intros Hwf.
  destruct (isOver g) eqn:Hover.
  { assert (Hm : apiMove g (Some from) (Some to)
                 = Done (g, Rejected GameOver))
      by (unfold apiMove; by rewrite Hover).
    rewrite Hm. split; [|done]. split; [done|by intros [? _]]. }
  destruct (decide (0 <= sr from < SIZE)) as [Hf|Hf];
    [destruct (decide (0 <= sr to < SIZE)) as [Ht|Ht]|].
  - destruct (apiMove_rows_on_board g from to Hwf Hf Ht) as (g' & resp & ->).
    split; [|done]. split; [done|]. intros [_ [?|?]]; done.
  - rewrite apiMove_row_off_board by auto. split; [|done].
    split; auto.
  - rewrite apiMove_row_off_board by auto. split; [|done].
    split; auto.
Qed.

(** ** What an accepted move does to the board *)

Lemma apiMove_verdict_ok (g : game) (from to : square) :
  wf_board (board g) -> isOver g = false ->
  isValidMove (board g) from to (turn g)
    (enPassantTarget g) (enPassantPawn g) = Done Ok ->
  exists g', apiMove g (Some from) (Some to) = Done (g', Accepted).
Proof.
  intros Hwf Hlive Hv. unfold apiMove. rewrite Hlive, Hv.
  apply isValidMove_Ok in Hv
    as (Hfb & Htb & _ & mp & dest & Hp & _ & Hd & _).
  rewrite Hp, Hd. cbn [mbind exec_bind].
  destruct (commitMove_board g from to mp (typeOf (JStr mp)) dest
              (negb (is_null dest))
              (isEnPassantCaptureOf (JStr mp) dest from to
                 (enPassantTarget g) (enPassantPawn g))
              (enPassantPawn g) Hwf Hfb Htb) as (g' & -> & _); [|eauto].
  intros Hepc. apply isEnPassantCaptureOf_true in Hepc
    as (v & _ & _ & _ & _ & _ & Hv & Hvr & Hvc).
  exists v. split; [done|]. destruct Hfb, Htb. unfold onBoard. lia.
Qed.

Lemma accepted_origin_empty (g g' : game) (from to : square) (mp : piece)
    (dest : jsval) :
  accepted g from to mp dest g' -> emptyAt (board g') from.
Proof.
  intros Hacc. unfold emptyAt. rewrite (acc_board _ _ _ _ _ _ Hacc).
  unfold boardAfter.
  rewrite (isSq_neq from to) by apply Hacc. rewrite andb_false_r.
  rewrite isSq_refl.
  destruct (isEnPassantCaptureOf _ _ _ _ _ _) eqn:Hepc; cbn [andb]; [|done].
  destruct (enPassantPawn g) as [v|] eqn:Hv; [|done].
  destruct (victim_elsewhere _ _ _ _ _ _ _ Hepc eq_refl) as [Hvf _].
  by rewrite (isSq_neq from v) by (by apply not_eq_sym).
Qed.

Lemma isSq_true (r c : Z) (s : square) :
  isSq r c s = true <-> Sq r c = s.
Proof.
  unfold isSq. rewrite andb_true_iff, !Z.eqb_eq. destruct s as [a b].
  simpl. split; [intros [-> ->]; done|intros [= -> ->]; done].
Qed.

Lemma square_eq_or_neq (s t : square) : s = t \/ s <> t.
Proof.
  destruct s as [a b], t as [a' b'].
  destruct (Z.eq_dec a a') as [->|?]; [|right; congruence].
  destruct (Z.eq_dec b b') as [->|?]; [by left|right; congruence].
Qed.

(** Where a piece read after an accepted move comes from. *)
Lemma accepted_read (g g' : game) (from to : square) (mp : piece)
    (dest : jsval) (s : square) (p : piece) :
  accepted g from to mp dest g' -> pieceAt (board g') s p ->
  (s = to /\ p = if promotes mp to then Piece (pcolor mp) Queen else mp)
  \/ (s <> from /\ s <> to /\ pieceAt (board g) s p).
Proof.
  intros Hacc Hp. destruct (square_eq_or_neq s to) as [->|Hst].
  { left. split; [done|].
    pose proof (accepted_destination _ _ _ _ _ _ Hacc) as Hd.
    unfold pieceAt in *. congruence. }
  right. unfold pieceAt in Hp. rewrite (acc_board _ _ _ _ _ _ Hacc) in Hp.
  unfold boardAfter in Hp.
  rewrite (isSq_neq s to) in Hp by done. rewrite andb_false_r in Hp.
  destruct (_ && _); [done|].
  destruct (isSq (sr s) (sc s) from) eqn:Hsf; [done|].
  split; [|done]. intros ->. by rewrite isSq_refl in Hsf.
Qed.

(** What becomes of a piece that is neither moved nor captured on its
    square. *)
Lemma accepted_kept (g g' : game) (from to : square) (mp : piece)
    (dest : jsval) (s : square) :
  accepted g from to mp dest g' -> s <> from -> s <> to ->
  getCell (board g') (sr s) (sc s) = getCell (board g) (sr s) (sc s)
  \/ (isEnPassantCaptureOf (JStr mp) dest from to
        (enPassantTarget g) (enPassantPawn g) = true
      /\ enPassantPawn g = Some s /\ emptyAt (board g') s).
Proof.
  intros Hacc Hsf Hst. unfold emptyAt.
  rewrite (acc_board _ _ _ _ _ _ Hacc). unfold boardAfter.
  rewrite (isSq_neq s to), (isSq_neq s from) by done.
  rewrite andb_false_r.
  destruct (isEnPassantCaptureOf _ _ _ _ _ _); cbn [andb]; [|by left].
  destruct (enPassantPawn g) as [v|]; [|by left].
  destruct (isSq (sr s) (sc s) v) eqn:Hv; [|by left].
  right. apply isSq_true in Hv. destruct s. by rewrite <- Hv.
Qed.


(** ** Invariants of the reachable states *)

Lemma apiReset_initial (g : game) : apiReset g = initialGame.
Proof. by destruct g. Qed.

Lemma row_cases (r : Z) :
  0 <= r < SIZE ->
  r = 0 \/ r = 1 \/ r = 2 \/ r = 3 \/ r = 4 \/ r = 5 \/ r = 6 \/ r = 7
  \/ r = 8 \/ r = 9.
Proof. unfold SIZE. lia. Qed.

Lemma noPawnOnEdge_initialBoard : noPawnOnEdge initialBoard.
Proof.
  intros [r c] p Hp Hr Hk.
  pose proof (pieceAt_onBoard _ _ _ wf_initialBoard Hp) as [_ Hc].
  apply column_cases in Hc. cbn [sr sc] in *. unfold SIZE in Hr.
  destruct Hr as [-> | ->];
    repeat (destruct Hc as [->|Hc];
            [vm_compute in Hp; injection Hp as <-; done|]);
    subst; vm_compute in Hp; injection Hp as <-; done.
Qed.

Lemma king_initialBoard (x : color) (s : square) :
  pieceAt initialBoard s (Piece x King) -> s = Sq (homeRow x) 5.
Proof.
  intros Hp.
  pose proof (pieceAt_onBoard _ _ _ wf_initialBoard Hp) as [Hr Hc].
  destruct s as [r c]. cbn [sr sc] in *.
  apply row_cases in Hr. apply column_cases in Hc.
  destruct x;
    repeat (destruct Hr as [->|Hr]);
    repeat (destruct Hc as [->|Hc]);
    subst; vm_compute in Hp; first [discriminate Hp | reflexivity].
Qed.

Lemma kingsOk_initialGame : kingsOk initialGame.
Proof.
  split.
  - intros x s s' Hs Hs'. apply king_initialBoard in Hs, Hs'. congruence.
  - intros _ x. exists (Sq (homeRow x) 5). by destruct x.
Qed.

Lemma accepted_noPawnOnEdge (g g' : game) (from to : square) (mp : piece)
    (dest : jsval) :
  wf_board (board g) -> accepted g from to mp dest g' ->
  noPawnOnEdge (board g) -> noPawnOnEdge (board g').
Proof.
  intros Hwf Hacc Hinv s p Hp Hrow Hk.
  destruct (accepted_read _ _ _ _ _ _ s p Hacc Hp)
    as [[-> Hpp]|(_ & _ & Hold)]; [|by apply (Hinv s p)].
  unfold promotes in Hpp.
  destruct (kind_eqb (pkind mp) Pawn) eqn:Hmk; cbn [andb] in Hpp.
  - apply kind_eqb_eq in Hmk.
    destruct (Z.eqb_spec (sr to) (promoteRowOf (pcolor mp))) as [?|Hrow'];
      [by subst p|].
    destruct (acc_from _ _ _ _ _ _ Hacc) as [? _].
    destruct (accepted_pawn_rows _ _ _ _ _ _ Hwf Hacc Hmk) as [?|[? ?]];
      destruct (pcolor mp); rows.
  - subst p. apply kind_eqb_eq in Hk. congruence.
Qed.

Lemma accepted_isOver (g g' : game) (from to : square) (mp : piece)
    (dest : jsval) :
  accepted g from to mp dest g' ->
  isOver g' = true <-> exists k, dest = JStr k /\ pkind k = King.
Proof.
  intros Hacc.
  destruct (commitMove_fields _ _ _ _ _ _ _ _ _ _ _ (acc_commit _ _ _ _ _ _ Hacc))
    as (_ & _ & _ & Hover & _).
  rewrite Hover, (acc_live _ _ _ _ _ _ Hacc).
  unfold has_kind, type_is.
  destruct dest as [| |k]; cbn; [split; [done|by intros (? & ? & _)]..|].
  destruct (kind_eqb (pkind k) King) eqn:Hk.
  - apply kind_eqb_eq in Hk. split; [eauto|done].
  - split; [done|]. intros (k' & [= <-] & Hk').
    apply kind_eqb_eq in Hk'. congruence.
Qed.

Lemma accepted_kingsOk (g g' : game) (from to : square) (mp : piece)
    (dest : jsval) :
  accepted g from to mp dest g' -> kingsOk g -> kingsOk g'.
Proof.
  intros Hacc [Huniq Hex].
  assert (Hmover : forall x,
            (if promotes mp to then Piece (pcolor mp) Queen else mp)
            = Piece x King ->
            pieceAt (board g) from (Piece x King) /\ promotes mp to = false).
  { intros x Hx. destruct (promotes mp to) eqn:Hpr; [done|].
    subst mp. split; [apply Hacc|done]. }
  split.
  - intros x s s' Hs Hs'.
    destruct (accepted_read _ _ _ _ _ _ s _ Hacc Hs)
      as [[-> Hp]|(Hsf & _ & Hold)];
      destruct (accepted_read _ _ _ _ _ _ s' _ Hacc Hs')
        as [[-> Hp']|(Hsf' & _ & Hold')]; try done.
    + symmetry in Hp. apply Hmover in Hp as [Hfrom _].
      exfalso. apply Hsf'. by apply (Huniq x).
    + symmetry in Hp'. apply Hmover in Hp' as [Hfrom _].
      exfalso. apply Hsf. by apply (Huniq x).
    + by apply (Huniq x).
  - intros Hlive x.
    destruct (Hex (acc_live _ _ _ _ _ _ Hacc) x) as [s Hs].
    destruct (square_eq_or_neq s from) as [->|Hsf].
    { exists to. pose proof (accepted_destination _ _ _ _ _ _ Hacc) as Hd.
      pose proof (acc_piece _ _ _ _ _ _ Hacc) as Hp.
      unfold pieceAt in Hp, Hs. rewrite Hs in Hp. injection Hp as <-.
      by unfold promotes in Hd. }
    destruct (square_eq_or_neq s to) as [->|Hst].
    { exfalso. unfold pieceAt in Hs.
      rewrite (acc_dest _ _ _ _ _ _ Hacc) in Hs. injection Hs as ->.
      assert (isOver g' = true); [|congruence].
      apply (accepted_isOver _ _ _ _ _ _ Hacc). eauto. }
    exists s.
    destruct (accepted_kept _ _ _ _ _ _ s Hacc Hsf Hst)
      as [Heq|(Hepc & Hv & _)]; [unfold pieceAt; by rewrite Heq|].
    exfalso. apply (accepted_enPassant _ _ _ _ _ _ Hacc) in Hepc.
    apply enPassantClause_true in Hepc
      as (v & p & _ & Hv' & _ & _ & _ & Hp & Hpk & _).
    rewrite Hv in Hv'. injection Hv' as <-.
    unfold pieceAt in Hs. rewrite Hs in Hp. injection Hp as <-. done.
Qed.

Lemma accepted_historyOk (g g' : game) (from to : square) (mp : piece)
    (dest : jsval) :
  accepted g from to mp dest g' -> historyOk g -> historyOk g'.
Proof.
  intros Hacc Hh. unfold historyOk in *.
  destruct (commitMove_fields _ _ _ _ _ _ _ _ _ _ _ (acc_commit _ _ _ _ _ _ Hacc))
    as (_ & Ht & Hn & _ & _ & _ & Hm).
  rewrite Hm, Ht, Hn, length_app. cbn [length].
  destruct (turn g); cbn [color_eqb]; lia.
Qed.

Lemma dirOf_other (x : color) : dirOf (other x) = - dirOf x.
Proof. by destruct x. Qed.

Lemma accepted_windowOk (g g' : game) (from to : square) (mp : piece)
    (dest : jsval) :
  wf_board (board g) -> accepted g from to mp dest g' -> windowOk g'.
Proof.
  intros Hwf Hacc. unfold windowOk.
  destruct (accepted_window _ _ _ _ _ _ Hacc) as [-> ->].
  destruct (isDoubleStep mp from to) eqn:Hds; [|done].
  apply (isDoubleStep_doubleStep mp from to (acc_to _ _ _ _ _ _ Hacc)) in Hds
    as Hd. destruct Hd as (Hk & Hstart & Hrow & Hcol).
  destruct (commitMove_fields _ _ _ _ _ _ _ _ _ _ _ (acc_commit _ _ _ _ _ _ Hacc))
    as (_ & Ht & _).
  assert (Hm : other (turn g') = pcolor mp).
  { rewrite Ht, <- (acc_turn _ _ _ _ _ _ Hacc). by destruct (pcolor mp). }
  cbv zeta. rewrite Hm. cbn [sr sc].
  change (forward (pcolor mp)) with (dirOf (pcolor mp)) in Hrow.
  change (startRank (pcolor mp)) with (startRowOf (pcolor mp)) in Hstart.
  split; [done|]. split; [lia|]. split; [lia|].
  assert (Hflag : isEnPassantCaptureOf (JStr mp) dest from to
                    (enPassantTarget g) (enPassantPawn g) = false).
  { destruct (isEnPassantCaptureOf _ _ _ _ _ _) eqn:He; [|done].
    apply isEnPassantCaptureOf_true in He as (? & _ & _ & ? & _). lia. }
  split.
  - (* the skipped square was empty and is not written *)
    pose proof (acc_pawn _ _ _ _ _ _ Hacc Hk) as Hp.
    destruct (isValidPawnMove_spec (board g) from to (pcolor mp)
                (enPassantTarget g) (enPassantPawn g) Hwf
                (acc_from _ _ _ _ _ _ Hacc) (acc_to _ _ _ _ _ _ Hacc))
      as (ok & Hok & Hiff).
    rewrite Hp in Hok. injection Hok as <-.
    assert (Hmid : emptyAt (board g)
                     (Sq (sr from + dirOf (pcolor mp)) (sc from))).
    { destruct (proj1 Hiff eq_refl) as [H|[H|[H|H]]].
      - destruct H as (_ & H & _). unfold forward in H.
        destruct (pcolor mp); simpl in *; lia.
      - by destruct H as (_ & _ & _ & H & _).
      - destruct H as (H & _). lia.
      - destruct H as (H & _). lia. }
    unfold emptyAt in *. rewrite (acc_board _ _ _ _ _ _ Hacc).
    unfold boardAfter. rewrite Hflag. cbn [andb sr sc] in *.
    assert (Hnt : isSq (sr from + dirOf (pcolor mp)) (sc from) to = false).
    { unfold isSq. apply andb_false_iff. left. apply Z.eqb_neq.
      destruct (pcolor mp); simpl in *; lia. }
    assert (Hnf : isSq (sr from + dirOf (pcolor mp)) (sc from) from = false).
    { unfold isSq. apply andb_false_iff. left. apply Z.eqb_neq.
      destruct (pcolor mp); simpl in *; lia. }
    rewrite Hnt, Hnf, andb_false_r. exact Hmid.
  - pose proof (accepted_destination _ _ _ _ _ _ Hacc) as Hdest.
    assert (Hnp : promotes mp to = false).
    { unfold promotes. apply andb_false_iff. right. apply Z.eqb_neq.
      destruct (pcolor mp); rows. }
    rewrite Hnp in Hdest.
    replace (Sq (sr to) (sc to)) with to by (by destruct to).
    replace (Piece (pcolor mp) Pawn) with mp; [done|].
    destruct mp as [x k]. simpl in *. by rewrite Hk.
Qed.

(** Every reachable state keeps the board 10x10 and the four invariants. *)
Lemma reachable_invariants (g : game) :
  reachable g ->
  wf_board (board g) /\ noPawnOnEdge (board g) /\ kingsOk g
  /\ historyOk g /\ windowOk g.
Proof.
  induction 1 as [|g f t g' resp _ IH Hm|g _ _].
  - split; [apply wf_initialBoard|]. split; [apply noPawnOnEdge_initialBoard|].
    split; [apply kingsOk_initialGame|]. done.
  - destruct IH as (Hwf & Hedge & Hkings & Hhist & Hwin).
    destruct resp as [|why].
    + destruct (apiMove_accepted g g' _ _ Hwf Hm)
        as (from & to & mp & dest & _ & _ & Hacc).
      split; [apply Hacc|].
      split; [by apply (accepted_noPawnOnEdge g g' from to mp dest)|].
      split; [by apply (accepted_kingsOk g g' from to mp dest)|].
      split; [by apply (accepted_historyOk g g' from to mp dest)|].
      by apply (accepted_windowOk g g' from to mp dest).
    + by apply apiMove_Rejected in Hm as ->.
  - rewrite apiReset_initial.
    split; [apply wf_initialBoard|]. split; [apply noPawnOnEdge_initialBoard|].
    split; [apply kingsOk_initialGame|]. done.
Qed.

(** X12. In every state the server can reach, through any sequence of
    move submissions and resets, the board is the 10x10 grid and rows 0
    and 9 hold no pawn: a pawn never stands on its own back rank and is
    replaced when it reaches the far one. *)
Theorem reachable_board (g : game) :
  reachable g -> wf_board (board g) /\ noPawnOnEdge (board g).
Proof. intros Hr. by destruct (reachable_invariants g Hr) as (? & ? & _). Qed.

(** X13. In every state reached from the initial one by resets and by
    move submissions with integer coordinates, each colour has at most
    one King, and exactly one as long as the game is not over. *)
Theorem reachable_kings (g : game) : reachable g -> kingsOk g.
Proof.
  intros Hr. by destruct (reachable_invariants g Hr) as (_ & _ & ? & _).
Qed.

(** X14. In every reachable state the history has two entries for each
    completed move number and one more when it is Black's turn: its length
    is [2 * (moveNumber - 1)] with White to move and one more with Black to
    move. *)
Theorem reachable_history (g : game) : reachable g -> historyOk g.
Proof.
  intros Hr. by destruct (reachable_invariants g Hr) as (_ & _ & _ & ? & _).
Qed.

(** X15. In every reachable state the two halves of the en-passant window
    are null together; when set, the victim square holds a pawn of the side
    that has just moved, in the target's column one row beyond it, and the
    target square, the one that pawn skipped, is empty. *)
Theorem reachable_window (g : game) : reachable g -> windowOk g.
Proof.
  intros Hr. by destruct (reachable_invariants g Hr) as (_ & _ & _ & _ & ?).
Qed.

(** X16. While the window is open the capture is there to take: with the
    game not over, a pawn of the side to move standing on the victim's row
    in a column next to the target is accepted onto the target; afterwards
    it stands there, and its origin and the victim square are empty. *)
Theorem enPassant_available (g : game) (T V a : square) :
  wf_board (board g) -> windowOk g -> isOver g = false ->
  enPassantTarget g = Some T -> enPassantPawn g = Some V ->
  pieceAt (board g) a (Piece (turn g) Pawn) ->
  sr a = sr V -> Z.abs (sc T - sc a) = 1 ->
  exists g',
    apiMove g (Some a) (Some T) = Done (g', Accepted)
    /\ pieceAt (board g') T (Piece (turn g) Pawn)
    /\ emptyAt (board g') a /\ emptyAt (board g') V.
Proof.
  intros Hwf Hwin Hlive HT HV Hp Hrow Hcol.
  unfold windowOk in Hwin. rewrite HT, HV in Hwin. cbv zeta in Hwin.
  destruct Hwin as (Hvc & Htr & Hvr & Hempty & Hvictim).
  rewrite dirOf_other in Hvr.
  assert (Ha : onBoard a) by eauto using pieceAt_onBoard.
  assert (HTb : onBoard T) by eauto using emptyAt_onBoard.
  assert (Hne : a <> T) by (apply square_neq; right; lia).
  assert (Hown : ~ (exists q, pieceAt (board g) T q /\ pcolor q = turn g)).
  { intros (q & Hq & _). unfold pieceAt, emptyAt in *. congruence. }
  destruct (isValidPawnMove_spec (board g) a T (turn g) (Some T) (Some V)
              Hwf Ha HTb) as (ok & Hok & Hiff).
  assert (ok = true) as ->.
  { apply Hiff. right. right. right.
    split; [done|]. split; [rewrite forward_dirOf; lia|].
    split; [done|]. split; [done|]. exists V.
    split; [done|]. split; [lia|]. split; [done|].
    exists (Piece (other (turn g)) Pawn). split; [done|]. split; [done|].
    cbn. by destruct (turn g). }
  pose proof (isValidMove_pawn (board g) a T (turn g) (Some T) (Some V) true
                Hwf Ha HTb Hne Hp Hown Hok) as Hv.
  cbn [judge] in Hv. rewrite <- HT, <- HV in Hv.
  destruct (apiMove_verdict_ok g a T Hwf Hlive Hv) as [g' Hm].
  exists g'. split; [exact Hm|].
  destruct (apiMove_accepted g g' _ _ Hwf Hm)
    as (a' & T' & mp & dest & [= <-] & [= <-] & Hacc).
  pose proof (acc_piece _ _ _ _ _ _ Hacc) as Hmp.
  unfold pieceAt in Hmp, Hp. rewrite Hp in Hmp. injection Hmp as <-.
  pose proof (acc_dest _ _ _ _ _ _ Hacc) as Hd.
  unfold emptyAt in Hempty. rewrite Hempty in Hd. injection Hd as <-.
  split; [|split].
  - pose proof (accepted_destination _ _ _ _ _ _ Hacc) as Hdest.
    replace (promotes (Piece (turn g) Pawn) T) with false in Hdest; [done|].
    symmetry. unfold promotes. apply andb_false_iff. right. apply Z.eqb_neq.
    cbn [pcolor]. destruct (turn g); rows.
  - by apply (accepted_origin_empty g g' a T (Piece (turn g) Pawn) JNull).
  - assert (Hflag : isEnPassantCaptureOf (JStr (Piece (turn g) Pawn)) JNull
                      a T (enPassantTarget g) (enPassantPawn g) = true).
    { apply isEnPassantCaptureOf_true. exists V. rewrite HT, HV.
      repeat split; try done; cbn [pcolor]; lia. }
    unfold emptyAt. rewrite (acc_board _ _ _ _ _ _ Hacc). unfold boardAfter.
    rewrite Hflag, HV, isSq_refl.
    assert (HVT : isSq (sr V) (sc V) T = false).
    { unfold isSq. apply andb_false_iff. left. apply Z.eqb_neq.
      destruct (turn g); simpl in *; lia. }
    by rewrite HVT, andb_false_r.
Qed.

(** ** Square names *)

Lemma squareName_cons (s : square) :
  squareName s
  = String (ascii_of_nat (97 + Z.to_nat (sc s))) (toString (SIZE - sr s)).
Proof. reflexivity. Qed.

(** X17. [toAlgebraic] names the squares of the board apart: two squares
    of the board with the same name are the same square.  Off the board
    the file is not a letter: a column outside [[0, 10)] prints as
    ["undefined"]. *)
Theorem toAlgebraic_names_apart (s t : square) :
  (onBoard s -> onBoard t ->
   toAlgebraic (sr s) (sc s) = toAlgebraic (sr t) (sc t) -> s = t)
  /\ (~ (0 <= sc s < SIZE) ->
      toAlgebraic (sr s) (sc s) = "undefined" +:+ toString (SIZE - sr s)).
Proof.
  split.
  - intros Hs Ht Heq.
    rewrite !toAlgebraic_squareName, !squareName_cons in Heq by done.
    injection Heq as Hc Hr.
    destruct s as [r c], t as [r' c'], Hs as [Hr1 Hc1], Ht as [Hr2 Hc2].
    cbn [sr sc] in *.
    assert (c = c').
    { apply column_cases in Hc1, Hc2. clear Hr.
      repeat (destruct Hc1 as [->|Hc1]);
        repeat (destruct Hc2 as [->|Hc2]); subst;
        first [reflexivity | vm_compute in Hc; discriminate Hc]. }
    assert (r = r').
    { apply row_cases in Hr1, Hr2. clear Hc.
      repeat (destruct Hr1 as [->|Hr1]);
        repeat (destruct Hr2 as [->|Hr2]); subst;
        first [reflexivity | vm_compute in Hr; discriminate Hr]. }
    congruence.
  - intros Hoff. unfold toAlgebraic, fileOf.
    rewrite index_out_of_range; [done|]. unfold SIZE in Hoff. simpl. lia.
Qed.

(** X18. The client names a square of the board as the server does, with
    the file letter in upper case: for board size 10 [rcToAlg] and
    [toAlgebraic] give the same rank after file letters 32 code points
    apart. *)
Theorem client_names_match (s : square) :
  onBoard s ->
  exists (file : ascii) (rank : string),
    toAlgebraic (sr s) (sc s) = String file rank
    /\ Client.rcToAlg (sr s) (sc s) SIZE
       = String (ascii_of_nat (nat_of_ascii file - 32)) rank.
Proof.
  intros [_ Hc]. destruct s as [r c]. cbn [sr sc] in *.
  apply column_cases in Hc.
  repeat (destruct Hc as [->|Hc];
          [eexists; eexists; split; reflexivity|]).
  subst. eexists; eexists; split; reflexivity.
Qed.

(** ** The earlier server *)

Lemma lite_pawn_agrees (b : Board) (from to : square) (x : color) :
  ChessLite.isValidPawnMove b from to x
  = isValidPawnMove b from to x None None.
Proof.
  unfold ChessLite.isValidPawnMove, isValidPawnMove, enPassantClause.
  destruct (getCell b (sr to) (sc to)) as [target| |]; cbn; try done.
  destruct (sc to - sc from =? 0); [done|].
  destruct (_ && _); [|done].
  by destruct (negb (is_null target) && negb (has_color target x)).
Qed.

Lemma lite_isValidMove_agrees (b : Board) (from to : square) (x : color) :
  ChessLite.isValidMove b from to x
  = v ← isValidMove b from to x None None; Done (liteVerdict v).
Proof.
  unfold ChessLite.isValidMove, isValidMove, isValidMoveWith.
  destruct (negb (inBounds (sr from) (sc from))
            || negb (inBounds (sr to) (sc to))); [done|].
  destruct ((sr from =? sr to) && (sc from =? sc to)); [done|].
  destruct (getCell b (sr from) (sc from)) as [[| |p]| |]; cbn; try done.
  destruct (negb (color_eqb (pcolor p) x)); [done|].
  destruct (getCell b (sr to) (sc to)) as [target| |]; cbn; try done.
  destruct (truthy target && has_color target x); [done|].
  destruct (pkind p).
  - rewrite lite_pawn_agrees.
    by destruct (isValidPawnMove b from to (pcolor p) None None) as [[|]| |].
  - destruct (_ || _); [|done].
    by destruct (pathClear b from to) as [[|]| |].
  - destruct (_ =? _); [|done].
    by destruct (pathClear b from to) as [[|]| |].
  - by destruct (_ || _).
  - by destruct (_ && _).
  - destruct (_ || _); [|done].
    by destruct (pathClear b from to) as [[|]| |].
  - by destruct (_ && _).
Qed.

(** X19. With no en-passant window the present validator is the earlier
    one: the pawn validators are equal on every input, the two
    [isValidMove] accept the same moves, and they give the same reason
    but for the noble, which the earlier server calls a prince. *)
Theorem lite_validator_agrees (b : Board) (from to : square) (x : color) :
  ChessLite.isValidPawnMove b from to x
  = isValidPawnMove b from to x None None
  /\ (ChessLite.isValidMove b from to x = Done ChessLite.Ok
      <-> isValidMove b from to x None None = Done Ok)
  /\ (forall v, isValidMove b from to x None None = Done v ->
      ChessLite.isValidMove b from to x = Done (liteVerdict v))
  /\ (ChessLite.isValidMove b from to x = TypeError
      <-> isValidMove b from to x None None = TypeError).
Proof.
  split; [apply lite_pawn_agrees|].
  rewrite lite_isValidMove_agrees.
  destruct (isValidMove b from to x None None) as [[|why]| |];
    cbn [mbind exec_bind]; repeat split; try done.
  - by intros v [= <-].
  - by destruct why.
  - by intros v [= <-].
Qed.

(** X20. The earlier handler validates before it reads the board: on a
    10x10 board it answers every submission with integer coordinates,
    never throwing, leaves the board 10x10, and answers a square off the
    board with the out-of-bounds reason and the state unchanged. *)
Theorem lite_handler_never_throws (g : ChessLite.game) (from to : square) :
  wf_board (ChessLite.board g) ->
  exists g' resp,
    ChessLite.apiMove g (Some from) (Some to) = Done (g', resp)
    /\ wf_board (ChessLite.board g')
    /\ (~ onBoard from \/ ~ onBoard to ->
        g' = g /\ resp = ChessLite.Rejected "Out of bounds.").
Proof.
  intros Hwf. unfold ChessLite.apiMove. rewrite lite_isValidMove_agrees.
  destruct (isValidMove_total (ChessLite.board g) from to (ChessLite.turn g)
              None None Hwf) as [v Hv].
  rewrite Hv. cbn [mbind exec_bind].
  destruct v as [|why].
  - apply isValidMove_Ok in Hv
      as (Hf & Ht & _ & mp & dest & Hp & _).
    cbn [liteVerdict]. rewrite Hp. cbn [mbind exec_bind].
    destruct (setCell_onBoard (ChessLite.board g) to (Some mp) Hwf Ht)
      as (b1 & -> & Hwf1 & _).
    cbn [mbind exec_bind].
    destruct (setCell_onBoard b1 from None Hwf1 Hf) as (b2 & -> & Hwf2 & _).
    cbn [mbind exec_bind].
    eexists. eexists. split; [reflexivity|]. split; [done|].
    intros [?|?]; done.
  - exists g, (match liteVerdict (Fail why) with
               | ChessLite.Fail r => ChessLite.Rejected r
               | ChessLite.Ok => ChessLite.Accepted
               end).
    split; [by destruct why|]. split; [done|].
    intros Hoff. rewrite isValidMove_off_board in Hv by done.
    injection Hv as <-. done.
Qed.

(** ** The further properties at sample positions *)

Ltac sample_board := apply wf_sample; reflexivity.
Ltac sample_square := apply onBoard_sample; reflexivity.
Ltac sample_read := vm_compute; reflexivity.
Ltac sample_not_own :=
  let q := fresh "q" in let Hq := fresh "Hq" in let Hc := fresh "Hc" in
  intros (q & Hq & Hc); vm_compute in Hq;
  first [discriminate Hq | injection Hq as <-; discriminate Hc].

Lemma knight_rule_witness :
  wf_board initialBoard /\ onBoard (Sq 9 1) /\ onBoard (Sq 7 2)
  /\ Sq 9 1 <> Sq 7 2
  /\ pieceAt initialBoard (Sq 9 1) (Piece White Knight)
  /\ ~ (exists q, pieceAt initialBoard (Sq 7 2) q /\ pcolor q = White)
  /\ knightShape (Sq 9 1) (Sq 7 2)
  /\ isValidMove initialBoard (Sq 9 1) (Sq 7 2) White None None = Done Ok.
Proof.
  assert (Hwf : wf_board initialBoard) by sample_board.
  assert (Hf : onBoard (Sq 9 1)) by sample_square.
  assert (Ht : onBoard (Sq 7 2)) by sample_square.
  assert (Hne : Sq 9 1 <> Sq 7 2) by discriminate.
  assert (Hp : pieceAt initialBoard (Sq 9 1) (Piece White Knight))
    by sample_read.
  assert (Hown : ~ (exists q, pieceAt initialBoard (Sq 7 2) q
                              /\ pcolor q = White)) by sample_not_own.
  assert (Hs : knightShape (Sq 9 1) (Sq 7 2)) by (left; split; reflexivity).
  repeat (split; [assumption|]).
  exact (proj1 (knight_rule initialBoard (Sq 9 1) (Sq 7 2) White None None
                  Hwf Hf Ht Hne Hp Hown) Hs).
Defined.

Lemma bishop_rule_witness :
  wf_board initialBoard /\ onBoard (Sq 9 2) /\ onBoard (Sq 6 5)
  /\ Sq 9 2 <> Sq 6 5
  /\ pieceAt initialBoard (Sq 9 2) (Piece White Bishop)
  /\ ~ (exists q, pieceAt initialBoard (Sq 6 5) q /\ pcolor q = White)
  /\ ~ (onDiagonal (Sq 9 2) (Sq 6 5) /\ pathEmpty initialBoard (Sq 9 2) (Sq 6 5))
  /\ isValidMove initialBoard (Sq 9 2) (Sq 6 5) White None None
     = Done (Fail IllegalBishop).
Proof.
  assert (Hwf : wf_board initialBoard) by sample_board.
  assert (Hf : onBoard (Sq 9 2)) by sample_square.
  assert (Ht : onBoard (Sq 6 5)) by sample_square.
  assert (Hne : Sq 9 2 <> Sq 6 5) by discriminate.
  assert (Hp : pieceAt initialBoard (Sq 9 2) (Piece White Bishop))
    by sample_read.
  assert (Hown : ~ (exists q, pieceAt initialBoard (Sq 6 5) q
                              /\ pcolor q = White)) by sample_not_own.
  assert (Hs : ~ (onDiagonal (Sq 9 2) (Sq 6 5)
                  /\ pathEmpty initialBoard (Sq 9 2) (Sq 6 5))).
  { intros [_ He].
    assert (Hb : between (Sq 9 2) (Sq 6 5) (Sq 8 3))
      by (exists 1; split; [vm_compute; split; reflexivity|reflexivity]).
    apply He in Hb. vm_compute in Hb. discriminate Hb. }
  repeat (split; [assumption|]).
  exact (proj2 (bishop_rule initialBoard (Sq 9 2) (Sq 6 5) White None None
                  Hwf Hf Ht Hne Hp Hown) Hs).
Defined.

Lemma rook_rule_witness :
  wf_board initialBoard /\ onBoard (Sq 9 0) /\ onBoard (Sq 5 0)
  /\ Sq 9 0 <> Sq 5 0
  /\ pieceAt initialBoard (Sq 9 0) (Piece White Rook)
  /\ ~ (exists q, pieceAt initialBoard (Sq 5 0) q /\ pcolor q = White)
  /\ ~ (onRankOrFile (Sq 9 0) (Sq 5 0)
        /\ pathEmpty initialBoard (Sq 9 0) (Sq 5 0))
  /\ isValidMove initialBoard (Sq 9 0) (Sq 5 0) White None None
     = Done (Fail IllegalRook).
Proof.
  assert (Hwf : wf_board initialBoard) by sample_board.
  assert (Hf : onBoard (Sq 9 0)) by sample_square.
  assert (Ht : onBoard (Sq 5 0)) by sample_square.
  assert (Hne : Sq 9 0 <> Sq 5 0) by discriminate.
  assert (Hp : pieceAt initialBoard (Sq 9 0) (Piece White Rook))
    by sample_read.
  assert (Hown : ~ (exists q, pieceAt initialBoard (Sq 5 0) q
                              /\ pcolor q = White)) by sample_not_own.
  assert (Hs : ~ (onRankOrFile (Sq 9 0) (Sq 5 0)
                  /\ pathEmpty initialBoard (Sq 9 0) (Sq 5 0))).
  { intros [_ He].
    assert (Hb : between (Sq 9 0) (Sq 5 0) (Sq 8 0))
      by (exists 1; split; [vm_compute; split; reflexivity|reflexivity]).
    apply He in Hb. vm_compute in Hb. discriminate Hb. }
  repeat (split; [assumption|]).
  exact (proj2 (rook_rule initialBoard (Sq 9 0) (Sq 5 0) White None None
                  Hwf Hf Ht Hne Hp Hown) Hs).
Defined.

Lemma queen_rule_witness :
  wf_board (board afterE4) /\ onBoard (Sq 0 4) /\ onBoard (Sq 3 4)
  /\ Sq 0 4 <> Sq 3 4
  /\ pieceAt (board afterE4) (Sq 0 4) (Piece Black Queen)
  /\ ~ (exists q, pieceAt (board afterE4) (Sq 3 4) q /\ pcolor q = Black)
  /\ ~ ((onRankOrFile (Sq 0 4) (Sq 3 4) \/ onDiagonal (Sq 0 4) (Sq 3 4))
        /\ pathEmpty (board afterE4) (Sq 0 4) (Sq 3 4))
  /\ isValidMove (board afterE4) (Sq 0 4) (Sq 3 4) Black
       (enPassantTarget afterE4) (enPassantPawn afterE4)
     = Done (Fail IllegalQueen).
Proof.
  assert (Hwf : wf_board (board afterE4)) by sample_board.
  assert (Hf : onBoard (Sq 0 4)) by sample_square.
  assert (Ht : onBoard (Sq 3 4)) by sample_square.
  assert (Hne : Sq 0 4 <> Sq 3 4) by discriminate.
  assert (Hp : pieceAt (board afterE4) (Sq 0 4) (Piece Black Queen))
    by sample_read.
  assert (Hown : ~ (exists q, pieceAt (board afterE4) (Sq 3 4) q
                              /\ pcolor q = Black)) by sample_not_own.
  assert (Hs : ~ ((onRankOrFile (Sq 0 4) (Sq 3 4)
                   \/ onDiagonal (Sq 0 4) (Sq 3 4))
                  /\ pathEmpty (board afterE4) (Sq 0 4) (Sq 3 4))).
  { intros [_ He].
    assert (Hb : between (Sq 0 4) (Sq 3 4) (Sq 1 4))
      by (exists 1; split; [vm_compute; split; reflexivity|reflexivity]).
    apply He in Hb. vm_compute in Hb. discriminate Hb. }
  repeat (split; [assumption|]).
  exact (proj2 (queen_rule (board afterE4) (Sq 0 4) (Sq 3 4) Black
                  (enPassantTarget afterE4) (enPassantPawn afterE4)
                  Hwf Hf Ht Hne Hp Hown) Hs).
Defined.


Lemma rejection_order_witness :
  wf_board initialBoard /\ onBoard (Sq 1 4) /\ onBoard (Sq 2 4)
  /\ Sq 1 4 <> Sq 2 4
  /\ pieceAt initialBoard (Sq 1 4) (Piece Black Pawn) /\ Black <> White
  /\ isValidMove initialBoard (Sq 1 4) (Sq 2 4) White None None
     = Done (Fail NotYourPiece).
Proof.
  assert (Hwf : wf_board initialBoard) by sample_board.
  assert (Hf : onBoard (Sq 1 4)) by sample_square.
  assert (Ht : onBoard (Sq 2 4)) by sample_square.
  assert (Hne : Sq 1 4 <> Sq 2 4) by discriminate.
  assert (Hp : pieceAt initialBoard (Sq 1 4) (Piece Black Pawn))
    by sample_read.
  assert (Hc : Black <> White) by discriminate.
  repeat (split; [assumption|]).
  exact (proj1 (proj2 (proj2 (proj2 (rejection_order initialBoard
                  (Sq 1 4) (Sq 2 4) White None None Hwf) Hf Ht) Hne)
                  (Piece Black Pawn) Hp) Hc).
Defined.

Lemma validator_safety_witness :
  wf_board initialBoard /\ ~ (0 <= sr (Sq (-1) 0) < SIZE)
  /\ isValidPawnMove initialBoard (Sq 0 0) (Sq (-1) 0) White None None
     = TypeError.
Proof.
  assert (Hwf : wf_board initialBoard) by sample_board.
  assert (Hoff : ~ (0 <= sr (Sq (-1) 0) < SIZE)) by (simpl; lia).
  repeat (split; [assumption|]).
  exact (proj2 (proj2 (validator_safety initialBoard (Sq 0 0) (Sq (-1) 0)
                         White None None Hwf)) Hoff).
Defined.

Lemma pathClear_symmetric_witness :
  wf_board initialBoard /\ onBoard (Sq 7 0) /\ onBoard (Sq 2 5)
  /\ Sq 7 0 <> Sq 2 5 /\ aligned (Sq 7 0) (Sq 2 5)
  /\ pathClear initialBoard (Sq 7 0) (Sq 2 5)
     = pathClear initialBoard (Sq 2 5) (Sq 7 0).
Proof.
  assert (Hwf : wf_board initialBoard) by sample_board.
  assert (Hf : onBoard (Sq 7 0)) by sample_square.
  assert (Ht : onBoard (Sq 2 5)) by sample_square.
  assert (Hne : Sq 7 0 <> Sq 2 5) by discriminate.
  assert (Hal : aligned (Sq 7 0) (Sq 2 5)) by (right; right; reflexivity).
  repeat (split; [assumption|]).
  exact (pathClear_symmetric initialBoard (Sq 7 0) (Sq 2 5)
           Hwf Hf Ht Hne Hal).
Defined.

Lemma pathClear_off_line_witness :
  ~ aligned (Sq 7 0) (Sq 4 1)
  /\ (pathClear initialBoard (Sq 7 0) (Sq 4 1) = Done false
      \/ pathClear initialBoard (Sq 7 0) (Sq 4 1) = TypeError).
Proof.
  assert (Hoff : ~ aligned (Sq 7 0) (Sq 4 1)).
  { unfold aligned. simpl. lia. }
  split; [assumption|].
  exact (pathClear_off_line initialBoard (Sq 7 0) (Sq 4 1) Hoff).
Defined.

Lemma apiMove_throws_iff_witness :
  wf_board (board initialGame)
  /\ ((apiMove initialGame (Some (Sq 0 0)) (Some (Sq 10 0)) = TypeError
       <-> isOver initialGame = false
           /\ (~ (0 <= sr (Sq 0 0) < SIZE) \/ ~ (0 <= sr (Sq 10 0) < SIZE)))
      /\ apiMove initialGame (Some (Sq 0 0)) (Some (Sq 10 0)) <> OutOfFuel).
Proof.
  assert (Hwf : wf_board (board initialGame)) by sample_board.
  split; [assumption|].
  exact (apiMove_throws_iff initialGame (Sq 0 0) (Sq 10 0) Hwf).
Defined.


Lemma reachable_afterE4 : reachable afterE4.
Proof.
  apply (reach_move initialGame (Some (Sq 8 4)) (Some (Sq 6 4))
           afterE4 Accepted reach_init).
  vm_compute. reflexivity.
Qed.

Lemma reachable_board_witness :
  reachable afterE4
  /\ wf_board (board afterE4) /\ noPawnOnEdge (board afterE4).
Proof.
  split; [exact reachable_afterE4|].
  exact (reachable_board afterE4 reachable_afterE4).
Defined.

Lemma reachable_kings_witness : reachable afterE4 /\ kingsOk afterE4.
Proof.
  split; [exact reachable_afterE4|].
  exact (reachable_kings afterE4 reachable_afterE4).
Defined.

Lemma reachable_history_witness : reachable afterE4 /\ historyOk afterE4.
Proof.
  split; [exact reachable_afterE4|].
  exact (reachable_history afterE4 reachable_afterE4).
Defined.

Lemma reachable_window_witness : reachable afterE4 /\ windowOk afterE4.
Proof.
  split; [exact reachable_afterE4|].
  exact (reachable_window afterE4 reachable_afterE4).
Defined.

Lemma enPassant_available_witness :
  wf_board (board beforeEnPassant) /\ windowOk beforeEnPassant
  /\ isOver beforeEnPassant = false
  /\ enPassantTarget beforeEnPassant = Some (Sq 2 3)
  /\ enPassantPawn beforeEnPassant = Some (Sq 3 3)
  /\ pieceAt (board beforeEnPassant) (Sq 3 4)
       (Piece (turn beforeEnPassant) Pawn)
  /\ sr (Sq 3 4) = sr (Sq 3 3) /\ Z.abs (sc (Sq 2 3) - sc (Sq 3 4)) = 1
  /\ exists g',
       apiMove beforeEnPassant (Some (Sq 3 4)) (Some (Sq 2 3))
       = Done (g', Accepted)
       /\ pieceAt (board g') (Sq 2 3) (Piece (turn beforeEnPassant) Pawn)
       /\ emptyAt (board g') (Sq 3 4) /\ emptyAt (board g') (Sq 3 3).
Proof.
  assert (Hwf : wf_board (board beforeEnPassant)) by sample_board.
  assert (Hwin : windowOk beforeEnPassant).
  { unfold windowOk. cbn [enPassantTarget enPassantPawn beforeEnPassant].
    cbv zeta. by_evaluation. }
  assert (Hlive : isOver beforeEnPassant = false) by reflexivity.
  assert (HT : enPassantTarget beforeEnPassant = Some (Sq 2 3))
    by reflexivity.
  assert (HV : enPassantPawn beforeEnPassant = Some (Sq 3 3)) by reflexivity.
  assert (Hp : pieceAt (board beforeEnPassant) (Sq 3 4)
                 (Piece (turn beforeEnPassant) Pawn)) by sample_read.
  assert (Hr : sr (Sq 3 4) = sr (Sq 3 3)) by reflexivity.
  assert (Hc : Z.abs (sc (Sq 2 3) - sc (Sq 3 4)) = 1) by reflexivity.
  repeat (split; [assumption|]).
  exact (enPassant_available beforeEnPassant (Sq 2 3) (Sq 3 3) (Sq 3 4)
           Hwf Hwin Hlive HT HV Hp Hr Hc).
Defined.

Lemma toAlgebraic_names_apart_witness :
  ~ (0 <= sc (Sq 0 10) < SIZE)
  /\ toAlgebraic (sr (Sq 0 10)) (sc (Sq 0 10))
     = "undefined" +:+ toString (SIZE - sr (Sq 0 10)).
Proof.
  assert (Hoff : ~ (0 <= sc (Sq 0 10) < SIZE)) by (simpl; unfold SIZE; lia).
  split; [assumption|].
  exact (proj2 (toAlgebraic_names_apart (Sq 0 10) (Sq 0 0)) Hoff).
Defined.

Lemma client_names_match_witness :
  onBoard (Sq 6 4)
  /\ exists (file : ascii) (rank : string),
       toAlgebraic (sr (Sq 6 4)) (sc (Sq 6 4)) = String file rank
       /\ Client.rcToAlg (sr (Sq 6 4)) (sc (Sq 6 4)) SIZE
          = String (ascii_of_nat (nat_of_ascii file - 32)) rank.
Proof.
  assert (Hs : onBoard (Sq 6 4)) by sample_square.
  split; [assumption|].
  exact (client_names_match (Sq 6 4) Hs).
Defined.

Lemma lite_handler_never_throws_witness :
  wf_board (ChessLite.board (ChessLite.Game initialBoard White 1))
  /\ exists g' resp,
       ChessLite.apiMove (ChessLite.Game initialBoard White 1)
         (Some (Sq (-1) 0)) (Some (Sq 0 0)) = Done (g', resp)
       /\ wf_board (ChessLite.board g')
       /\ (~ onBoard (Sq (-1) 0) \/ ~ onBoard (Sq 0 0) ->
           g' = ChessLite.Game initialBoard White 1
           /\ resp = ChessLite.Rejected "Out of bounds.").
Proof.
  assert (Hwf : wf_board (ChessLite.board
                            (ChessLite.Game initialBoard White 1)))
    by sample_board.
  split; [assumption|].
  exact (lite_handler_never_throws (ChessLite.Game initialBoard White 1)
           (Sq (-1) 0) (Sq 0 0) Hwf).
Defined.
